(** * Price tokens: a shallow embedding of [src/lib/priceTokens.ts]

    The TypeScript module resolves placeholders such as
    [{{CAPITAL_REQUIREMENT}}] against a market quote.  The embedding keeps
    the data of the program as the runtime has it:

    - a JavaScript [number] is an IEEE-754 binary64 value, modelled by the
      Standard Library's [spec_float] at precision 53 and [emax = 1024];
      every arithmetic operator is the correctly rounded operation of
      [SpecFloat];
    - a JavaScript string is modelled by [string], read as the UTF-8 bytes of
      the text (the pattern and every character the program inspects are
      ASCII, so scanning bytes and scanning UTF-16 code units agree);
    - [null] is [None]. *)

From Stdlib Require Import ZArith List String Ascii Bool Lia.
From Stdlib Require Import SpecFloat.
Import ListNotations.

Local Open Scope string_scope.
Local Open Scope Z_scope.

(** ** The runtime: numbers *)

Module JS.

Definition number := spec_float.

Definition prec : Z := 53.
Definition emax : Z := 1024.

(** The double nearest to an integer (exact below [2^53]). *)
Definition of_Z (n : Z) : number := binary_normalize prec emax n 0 false.

Definition mul (x y : number) : number := SFmul prec emax x y.
Definition div (x y : number) : number := SFdiv prec emax x y.
Definition add (x y : number) : number := SFadd prec emax x y.
Definition sub (x y : number) : number := SFsub prec emax x y.

(** [x <= y] and [x > y] of the language: false as soon as one side is NaN. *)
Definition leb (x y : number) : bool := SFleb x y.
Definition ltb (x y : number) : bool := SFltb x y.

(** A decimal literal [n / 10^k] of the source text denotes the double
    nearest to that rational; the correctly rounded quotient of the two
    exactly representable integers is that double. *)
Definition decimal (n : Z) (k : Z) : number := div (of_Z n) (of_Z (10 ^ k)).

(** A number is one of the runtime's values when it is a canonical
    binary64 datum. *)
Definition is_number (x : number) : Prop := valid_binary prec emax x = true.

Definition is_finite (x : number) : bool :=
  match x with
  | S754_zero _ | S754_finite _ _ _ => true
  | _ => false
  end.

(** Modelled from the spec: [Math.round] is a builtin of the runtime, not
    code of this repository.  ECMAScript: NaN, the infinities and integers
    are returned as they are; otherwise the result is [floor (x + 1/2)],
    ties going toward +infinity, and a result of zero keeps the sign of [x]. *)
Definition Math_round (x : number) : number :=
  match x with
  | S754_finite s m e =>
      if 0 <=? e then x
      else
        let n := (2 * cond_Zopp s (Zpos m) + 2 ^ (- e)) / 2 ^ (- e + 1) in
        if n =? 0 then S754_zero s else of_Z n
  | _ => x
  end.

End JS.

(** ** The runtime: strings *)

Module Str.

(** [s] without the prefix [p], when [s] starts with [p]. *)
Fixpoint strip_prefix (p s : string) : option string :=
  match p with
  | EmptyString => Some s
  | String a p' =>
      match s with
      | EmptyString => None
      | String b s' => if Ascii.eqb a b then strip_prefix p' s' else None
      end
  end.

(** [String.prototype.replace] with a string pattern and a replacement
    that holds no [$]: the first occurrence of [pat] is replaced. *)
Fixpoint replace_first (pat repl s : string) : string :=
  match strip_prefix pat s with
  | Some rest => repl ++ rest
  | None =>
      match s with
      | EmptyString => EmptyString
      | String c s' => String c (replace_first pat repl s')
      end
  end.

(** [sub] occurs somewhere in [s]. *)
Definition occurs (sub s : string) : Prop :=
  exists a b, s = a ++ sub ++ b.

(** Every character of [s] passes the test [f]. *)
Fixpoint all_chars (f : ascii -> bool) (s : string) : bool :=
  match s with
  | EmptyString => true
  | String c s' => f c && all_chars f s'
  end.

Definition not_brace (c : ascii) : bool :=
  negb (Ascii.eqb c "{" || Ascii.eqb c "}").

Definition digit_or_comma (c : ascii) : bool :=
  Ascii.eqb c "," || ((48 <=? nat_of_ascii c)%nat && (nat_of_ascii c <=? 57)%nat).

End Str.

(** ** The runtime: currency formatting *)

Module Intl.

Definition digit_char (d : Z) : ascii := ascii_of_nat (48 + Z.to_nat d).

(** The decimal digits of [n >= 0], most significant first, with a comma
    before every group of three ([fuel] bounds the number of groups). *)
Fixpoint grouped (fuel : nat) (n : Z) : string :=
  match fuel with
  | O => EmptyString
  | S fuel' =>
      if n <? 1000 then
        if n <? 10 then String (digit_char n) EmptyString
        else if n <? 100 then
          String (digit_char (n / 10)) (String (digit_char (n mod 10)) EmptyString)
        else
          String (digit_char (n / 100))
            (String (digit_char (n / 10 mod 10))
               (String (digit_char (n mod 10)) EmptyString))
      else
        grouped fuel' (n / 1000) ++
        String "," (String (digit_char (n mod 1000 / 100))
                      (String (digit_char (n mod 1000 / 10 mod 10))
                         (String (digit_char (n mod 10)) EmptyString)))
  end.

Definition group_digits (n : Z) : string :=
  grouped (S (Z.to_nat (Z.log2 n))) n.

(** The integer nearest to [m * 2^e], a tie going away from zero. *)
Definition nearest_integer (m : positive) (e : Z) : Z :=
  if 0 <=? e then Zpos m * 2 ^ e
  else (2 * Zpos m + 2 ^ (- e)) / 2 ^ (- e + 1).

Definition sign_string (s : bool) : string := if s then "-" else "".

(** The sign the formatter shows: negative numbers and negative zero. *)
Definition shows_minus (x : JS.number) : bool :=
  match x with
  | S754_zero s | S754_infinity s | S754_finite s _ _ => s
  | S754_nan => false
  end.

(** The rendered magnitude, without sign and currency symbol. *)
Definition number_body (x : JS.number) : string :=
  match x with
  | S754_nan => "NaN"
  | S754_infinity _ => "∞"
  | S754_zero _ => "0"
  | S754_finite _ m e => group_digits (nearest_integer m e)
  end.

(** The grouped number alone: sign and digits, no currency symbol. *)
Definition format_plain (x : JS.number) : string :=
  sign_string (shows_minus x) ++ number_body x.

(** Modelled from the spec: [Intl.NumberFormat("en-US", {style: "currency",
    currency: "USD", minimumFractionDigits: 0, maximumFractionDigits: 0})]
    is the runtime's library, not code of this repository.  The value is
    rendered as whole dollars: an optional minus sign, the currency symbol,
    then the integer nearest to the value with grouping commas (ECMA-402
    formats the exact mathematical value of the double); NaN and the
    infinities are rendered by their symbols. *)
Definition format_currency (x : JS.number) : string :=
  sign_string (shows_minus x) ++ "$" ++ number_body x.

End Intl.

(** ** The module [priceTokens.ts] *)

(** Modelled from the spec: [ProductSpotSummary] is declared in
    [./monexSpot], which is not among the sources; the module reads only
    its numeric field [ask]. *)
Record ProductSpotSummary := { ask : JS.number }.

(** [PriceTokenConfig]: both fields are optional.  A field set to
    [undefined] is coerced to NaN by every arithmetic use the module makes
    of it and is represented here as [Some S754_nan]. *)
Record PriceTokenConfig := {
  premiumBandPercent : option JS.number;
  roundingIncrement : option JS.number
}.

Definition empty_config : PriceTokenConfig :=
  {| premiumBandPercent := None; roundingIncrement := None |}.

Definition DEFAULT_premiumBandPercent : JS.number := JS.of_Z 5.
Definition DEFAULT_roundingIncrement : JS.number := JS.of_Z 100.

(** [{ ...DEFAULT_CONFIG, ...config }], field by field. *)
Definition merged_premiumBandPercent (config : PriceTokenConfig) : JS.number :=
  match premiumBandPercent config with
  | Some v => v
  | None => DEFAULT_premiumBandPercent
  end.

Definition merged_roundingIncrement (config : PriceTokenConfig) : JS.number :=
  match roundingIncrement config with
  | Some v => v
  | None => DEFAULT_roundingIncrement
  end.

Definition roundToNearest (value increment : JS.number) : JS.number :=
  JS.mul (JS.Math_round (JS.div value increment)) increment.

Definition formatPrice (value : JS.number) (prefix : string) : string :=
  prefix ++ Intl.format_currency value.

(** The eight identifiers, in the order of the alternation of
    [TOKEN_PATTERN]. *)
Definition TOKEN_NAMES : list string :=
  [ "CAPITAL_REQUIREMENT"; "CAPITAL_REQUIREMENT_RANGE";
    "CAPITAL_REQUIREMENT_PLUS"; "LIQUIDITY_THRESHOLD"; "BAR_PRICE";
    "SPOT_PRICE"; "ONE_OZ_BAR_RANGE"; "HUNDRED_OZ_BAR_RANGE" ].

Definition FALLBACK : string := "current market price".

Definition en_dash : string := "–".

Definition estimatedSpotPerOz (askPrice : JS.number) : JS.number :=
  JS.div (JS.div askPrice (JS.of_Z 1000)) (JS.decimal 101 2).

(** The bounds computed by the three range cases of [resolveToken]. *)
Definition capital_low (askPrice band incr : JS.number) : JS.number :=
  roundToNearest
    (JS.mul askPrice (JS.sub (JS.of_Z 1) (JS.div band (JS.of_Z 100)))) incr.

Definition capital_high (askPrice band incr : JS.number) : JS.number :=
  roundToNearest
    (JS.mul askPrice (JS.add (JS.of_Z 1) (JS.div band (JS.of_Z 100)))) incr.

Definition one_oz_low (askPrice : JS.number) : JS.number :=
  roundToNearest (JS.mul (estimatedSpotPerOz askPrice) (JS.decimal 110 2)) (JS.of_Z 1).

Definition one_oz_high (askPrice : JS.number) : JS.number :=
  roundToNearest (JS.mul (estimatedSpotPerOz askPrice) (JS.decimal 133 2)) (JS.of_Z 1).

Definition hundred_oz_low (askPrice : JS.number) : JS.number :=
  roundToNearest
    (JS.mul (JS.mul (estimatedSpotPerOz askPrice) (JS.of_Z 100)) (JS.decimal 102 2))
    (JS.of_Z 100).

Definition hundred_oz_high (askPrice : JS.number) : JS.number :=
  roundToNearest
    (JS.mul (JS.mul (estimatedSpotPerOz askPrice) (JS.of_Z 100)) (JS.decimal 104 2))
    (JS.of_Z 100).

(** [!priceData || priceData.ask <= 0]. *)
Definition unavailable (priceData : option ProductSpotSummary) : bool :=
  match priceData with
  | None => true
  | Some p => JS.leb (ask p) (JS.of_Z 0)
  end.

Definition resolveToken (tokenType : string)
    (priceData : option ProductSpotSummary) (config : PriceTokenConfig) : string :=
  let premiumBandPercent := merged_premiumBandPercent config in
  let roundingIncrement := merged_roundingIncrement config in
  match priceData with
  | None => FALLBACK
  | Some p =>
      if JS.leb (ask p) (JS.of_Z 0) then FALLBACK
      else
        let askPrice := ask p in
        let roundedAsk := roundToNearest askPrice roundingIncrement in
        if String.eqb tokenType "CAPITAL_REQUIREMENT" then
          formatPrice roundedAsk "~"
        else if String.eqb tokenType "CAPITAL_REQUIREMENT_RANGE" then
          formatPrice (capital_low askPrice premiumBandPercent roundingIncrement) "~"
          ++ en_dash
          ++ Str.replace_first "~" ""
               (formatPrice (capital_high askPrice premiumBandPercent roundingIncrement) "~")
        else if String.eqb tokenType "CAPITAL_REQUIREMENT_PLUS"
             || String.eqb tokenType "LIQUIDITY_THRESHOLD" then
          formatPrice roundedAsk "~" ++ "+"
        else if String.eqb tokenType "BAR_PRICE" then
          formatPrice roundedAsk ""
        else if String.eqb tokenType "SPOT_PRICE" then
          formatPrice (roundToNearest (estimatedSpotPerOz askPrice) (JS.of_Z 1)) "~"
        else if String.eqb tokenType "ONE_OZ_BAR_RANGE" then
          formatPrice (one_oz_low askPrice) ""
          ++ en_dash
          ++ Str.replace_first "$" "" (formatPrice (one_oz_high askPrice) "")
        else if String.eqb tokenType "HUNDRED_OZ_BAR_RANGE" then
          formatPrice (hundred_oz_low askPrice) ""
          ++ en_dash
          ++ Str.replace_first "$" "" (formatPrice (hundred_oz_high askPrice) "")
        else FALLBACK
  end.

(** *** The scanner *)

(** The alternation [(A1|...|A8)] followed by [\}\}], tried at the start of
    [s] as a backtracking matcher does: the alternatives in their order, the
    first whose continuation matches wins.  The result is the captured
    group and the text after the match. *)
Fixpoint match_alternatives (alts : list string) (s : string)
    : option (string * string) :=
  match alts with
  | [] => None
  | a :: alts' =>
      match Str.strip_prefix a s with
      | Some r =>
          match Str.strip_prefix "}}" r with
          | Some rest => Some (a, rest)
          | None => match_alternatives alts' s
          end
      | None => match_alternatives alts' s
      end
  end.

(** [TOKEN_PATTERN] anchored at the start of [s]. *)
Definition match_here (s : string) : option (string * string) :=
  match Str.strip_prefix "{{" s with
  | Some r => match_alternatives TOKEN_NAMES r
  | None => None
  end.

(** One call of [exec] on the text that starts at [lastIndex]: the leftmost
    match, as the text before it, the captured group and the text after it
    (where the next call resumes). *)
Fixpoint exec (s : string) : option (string * string * string) :=
  match match_here s with
  | Some (g, rest) => Some (EmptyString, g, rest)
  | None =>
      match s with
      | EmptyString => None
      | String c s' =>
          match exec s' with
          | Some (before, g, rest) => Some (String c before, g, rest)
          | None => None
          end
      end
  end.

(** [text.replace(TOKEN_PATTERN, fn)] with the global flag: every match,
    left to right, is replaced by [fn] of its captured group; the replacement
    is not scanned again.  [fuel] bounds the number of matches. *)
Fixpoint replace_all (fuel : nat) (fn : string -> string) (s : string) : string :=
  match fuel with
  | O => s
  | S fuel' =>
      match exec s with
      | None => s
      | Some (before, g, rest) => before ++ fn g ++ replace_all fuel' fn rest
      end
  end.

Definition replaceTokens (text : string)
    (priceData : option ProductSpotSummary) (config : PriceTokenConfig) : string :=
  replace_all (String.length text)
    (fun tokenType => resolveToken tokenType priceData config) text.

Definition hasTokens (text : string) : bool :=
  match exec text with
  | Some _ => true
  | None => false
  end.

(** The loop [while ((match = pattern.exec(text)) !== null) tokens.push(match[1])]. *)
Fixpoint exec_loop (fuel : nat) (s : string) : list string :=
  match fuel with
  | O => []
  | S fuel' =>
      match exec s with
      | None => []
      | Some (_, g, rest) => g :: exec_loop fuel' rest
      end
  end.

Definition findTokens (text : string) : list string :=
  exec_loop (String.length text) text.

(** ** Conditions on the inputs *)

(** [ask > 0]: the quote is valid. *)
Definition valid_quote (p : ProductSpotSummary) : Prop :=
  JS.ltb (JS.of_Z 0) (ask p) = true.

(** Both fields of the merged configuration are positive. *)
Definition positive_config (config : PriceTokenConfig) : Prop :=
  JS.ltb (JS.of_Z 0) (merged_premiumBandPercent config) = true /\
  JS.ltb (JS.of_Z 0) (merged_roundingIncrement config) = true.

Definition quote (n : Z) : option ProductSpotSummary := Some {| ask := JS.of_Z n |}.

Definition nan_quote : option ProductSpotSummary := Some {| ask := S754_nan |}.

Definition infinite_quote (negative : bool) : option ProductSpotSummary :=
  Some {| ask := S754_infinity negative |}.

(** ** The text of a template *)

(** A token occurrence as the authors write it. *)
Definition token_text (k : string) : string := "{{" ++ k ++ "}}".

(** [s] holds no well-formed occurrence of a recognized identifier. *)
Definition token_free (s : string) : Prop :=
  forall pre k post, In k TOKEN_NAMES -> s <> pre ++ token_text k ++ post.

(** A text cut at its occurrences: a literal, then occurrences each
    followed by a literal. *)
Fixpoint template_source (lit0 : string) (segs : list (string * string)) : string :=
  match segs with
  | [] => lit0
  | (k, lit) :: segs' => lit0 ++ token_text k ++ template_source lit segs'
  end.

(** The same text with every occurrence replaced by [fn] of its kind. *)
Fixpoint template_filled (fn : string -> string) (lit0 : string)
    (segs : list (string * string)) : string :=
  match segs with
  | [] => lit0
  | (k, lit) :: segs' => lit0 ++ fn k ++ template_filled fn lit segs'
  end.

(** The literals hold no occurrence and the kinds are recognized. *)
Definition well_cut (lit0 : string) (segs : list (string * string)) : Prop :=
  token_free lit0 /\
  Forall (fun kl => In (fst kl) TOKEN_NAMES /\ token_free (snd kl)) segs.

(** ** Binary64 rounding, as arithmetic on integers

    The notions below are used to state and prove what the arithmetic of
    the module does.  A finite double is an integer number of units, the
    unit being the smallest positive double [2^-1074]. *)

Module Binary64.

(** The integer nearest to [N / D], a tie going to the even one. *)
Definition rne_div (N D : Z) : Z :=
  let q := N / D in
  match 2 * (N mod D) ?= D with
  | Lt => q
  | Eq => if Z.even q then q else q + 1
  | Gt => q + 1
  end.

(** [q] is the integer nearest to [N / D], a tie going to the even one. *)
Definition nearest_even (N D q : Z) : Prop :=
  (2 * q - 1) * D <= 2 * N <= (2 * q + 1) * D /\
  (2 * N = (2 * q + 1) * D -> Z.even q = true) /\
  (2 * N = (2 * q - 1) * D -> Z.even q = true).

(** The number of units of [2^1024], the first magnitude that overflows. *)
Definition OVER : Z := 2 ^ 2098.

(** The units of one: [1 = W * 2^-1074]. *)
Definition W : Z := 2 ^ 1074.

(** The spacing, as a power of two of the unit, of the doubles around
    [N / D] units. *)
Definition scale_exp (N D : Z) : Z := Z.max 0 (Z.log2 (N / D) - 52).

(** [N / D] units rounded to the nearest double, overflow left aside. *)
Definition round_raw (N D : Z) : Z :=
  let k := scale_exp N D in 2 ^ k * rne_div N (D * 2 ^ k).

Definition clamp (r : Z) : Z := if r <? OVER then r else OVER.

(** [N / D] units rounded to the nearest double; [OVER] stands for
    infinity. *)
Definition round_ulps (N D : Z) : Z := clamp (round_raw N D).

(** Rounding of a signed number of units. *)
Definition round_signed (z : Z) : Z := Z.sgn z * round_ulps (Z.abs z) 1.

(** A value of the format (unbounded above): a mantissa below [2^53]
    scaled by a power of two. *)
Definition representable (z : Z) : Prop :=
  exists m j, 0 <= m < 2 ^ 53 /\ 0 <= j /\ z = m * 2 ^ j.

(** The truncated mantissa [m] and the location [l] describe [Nn / X]. *)
Definition located (Nn X m : Z) (l : location) : Prop :=
  match l with
  | loc_Exact => Nn = m * X
  | loc_Inexact c => m * X < Nn < (m + 1) * X /\ (2 * Nn ?= (2 * m + 1) * X) = c
  end.

Definition located_record (Nn X : Z) (mrs : shr_record) : Prop :=
  0 <= shr_m mrs /\ located Nn X (shr_m mrs) (loc_of_shr_record mrs).

(** [fexp] of [SpecFloat] at precision 53 and [emax = 1024]. *)
Definition fexp64 (k : Z) : Z := Z.max (k - 53) (-1074).

(** The rounded mantissa [f] at exponent [E], renormalized. *)
Definition assemble (s : bool) (f E : Z) : spec_float :=
  if f =? 0 then S754_zero s
  else if f <? 2 ^ 53 then
    if E <=? 971 then S754_finite s (Z.to_pos f) E else S754_infinity s
  else
    if E + 1 <=? 971 then S754_finite s (Z.to_pos (2 ^ 52)) (E + 1)
    else S754_infinity s.

(** The last step of [binary_round_aux]. *)
Definition finish (s : bool) (mrs : shr_record) (e : Z) : spec_float :=
  match shr_m mrs with
  | Z0 => S754_zero s
  | Zpos m => if e <=? 1024 - 53 then S754_finite s m e else S754_infinity s
  | Zneg _ => S754_nan
  end.

(** The magnitude of a finite datum, in units. *)
Definition mag (m : positive) (e : Z) : Z := Zpos m * 2 ^ (e + 1074).

(** The position of a number on the line of units; the infinities sit at
    [OVER] and [- OVER] (NaN is given 0 and is always excluded). *)
Definition ord (x : spec_float) : Z :=
  match x with
  | S754_zero _ | S754_nan => 0
  | S754_infinity s => cond_Zopp s OVER
  | S754_finite s m e => cond_Zopp s (Zpos m * 2 ^ (e + 1074))
  end.

Definition is_nan (x : spec_float) : bool :=
  match x with S754_nan => true | _ => false end.

Definition sign_bit (x : spec_float) : bool :=
  match x with
  | S754_zero s | S754_infinity s | S754_finite s _ _ => s
  | S754_nan => false
  end.

(** A value of the runtime that is not NaN. *)
Definition ordinary (x : spec_float) : Prop :=
  valid_binary 53 1024 x = true /\ is_nan x = false.

(** The odd extension of a function of magnitudes. *)
Definition odd_ext (R : Z -> Z) (o : Z) : Z := Z.sgn o * R (Z.abs o).

End Binary64.

(** ** Vocabulary of the further properties *)

(** [x === y] on numbers: equal values, the two zeros alike, NaN equal to
    nothing. *)
Definition strict_equal (x y : JS.number) : bool := SFeqb x y.

(** The first character of a resolved value: never a character of a token. *)
Definition value_head (c : ascii) : Prop :=
  (c = "~" \/ c = "$" \/ c = "-" \/ c = "c")%char.

(** ** Strings: basic facts *)

Module StrFacts.
Import Str.

Lemma append_nil_r (s : string) : s ++ "" = s.
Proof. induction s as [|c s IH]; simpl; [reflexivity | now rewrite IH]. Qed.

Lemma append_assoc (a b c : string) : (a ++ b) ++ c = a ++ b ++ c.
Proof. induction a as [|x a IH]; simpl; [reflexivity | now rewrite IH]. Qed.

Lemma length_append (a b : string) :
  String.length (a ++ b) = (String.length a + String.length b)%nat.
Proof. induction a as [|x a IH]; simpl; [reflexivity | now rewrite IH]. Qed.

Lemma append_inv_head (a b c : string) : a ++ b = a ++ c -> b = c.
Proof.
  induction a as [|x a IH]; simpl; intros H; [exact H|].
  injection H as H. now apply IH.
Qed.

Lemma strip_prefix_app (p r : string) : strip_prefix p (p ++ r) = Some r.
Proof.
  induction p as [|a p IH]; simpl; [reflexivity|].
  now rewrite Ascii.eqb_refl.
Qed.

Lemma strip_prefix_Some (p s r : string) : strip_prefix p s = Some r -> s = p ++ r.
Proof.
  revert s; induction p as [|a p IH]; simpl; intros s H.
  - now injection H as ->.
  - destruct s as [|b s]; [discriminate|].
    destruct (Ascii.eqb_spec a b) as [->|]; [|discriminate].
    now rewrite (IH _ H).
Qed.

Lemma strip_prefix_iff (p s r : string) : strip_prefix p s = Some r <-> s = p ++ r.
Proof.
  split; [apply strip_prefix_Some | intros ->; apply strip_prefix_app].
Qed.

(** Two ways of cutting one string: one cut lies before the other. *)
Lemma append_eq_append (a b c d : string) :
  a ++ b = c ++ d ->
  (exists w, a = c ++ w /\ d = w ++ b) \/ (exists w, c = a ++ w /\ b = w ++ d).
Proof.
  revert c; induction a as [|x a IH]; simpl; intros c H.
  - right. exists c. split; [reflexivity | exact H].
  - destruct c as [|y c]; simpl in H.
    + left. exists (String x a). split; [reflexivity | now rewrite <- H].
    + injection H as -> H. destruct (IH _ H) as [[w [-> ->]]|[w [-> ->]]].
      * left. exists w. split; reflexivity.
      * right. exists w. split; reflexivity.
Qed.

End StrFacts.

(** ** The scanner finds exactly the well-formed occurrences *)

Module Scanner.
Import Str StrFacts.

Lemma token_text_eq (k rest : string) :
  token_text k ++ rest = String "{" (String "{" (k ++ String "}" (String "}" rest))).
Proof. unfold token_text. simpl. now rewrite append_assoc. Qed.

Lemma match_alternatives_sound (alts : list string) (s g rest : string) :
  match_alternatives alts s = Some (g, rest) ->
  In g alts /\ s = g ++ "}}" ++ rest.
Proof.
  induction alts as [|a alts IH]; cbn [match_alternatives In]; [discriminate|].
  destruct (strip_prefix a s) as [r|] eqn:Ha.
  - destruct (strip_prefix "}}" r) as [r'|] eqn:Hr.
    + intros H; injection H as <- <-.
      apply strip_prefix_Some in Ha, Hr. subst. auto.
    + intros H; destruct (IH H); auto.
  - intros H; destruct (IH H); auto.
Qed.

Lemma match_here_sound (s g rest : string) :
  match_here s = Some (g, rest) ->
  In g TOKEN_NAMES /\ s = token_text g ++ rest.
Proof.
  unfold match_here.
  destruct (strip_prefix "{{" s) as [r|] eqn:Hs; [|discriminate].
  intros H. apply match_alternatives_sound in H as [Hin ->].
  apply strip_prefix_Some in Hs. subst s. split; [exact Hin|].
  rewrite token_text_eq. reflexivity.
Qed.

(** A longer identifier that extends a shorter one is still found: the
    shorter alternative fails at the closing braces and the matcher moves
    on to the next alternative. *)
Lemma match_here_complete (k rest : string) :
  In k TOKEN_NAMES -> match_here (token_text k ++ rest) = Some (k, rest).
Proof.
  intros Hin. rewrite token_text_eq.
  repeat (destruct Hin as [<-|Hin]; [reflexivity|]).
  destruct Hin.
Qed.

(** What one call of [exec] returns. *)
Lemma exec_Some (s before g rest : string) :
  exec s = Some (before, g, rest) ->
  s = before ++ token_text g ++ rest /\ In g TOKEN_NAMES /\
  (forall u v, before = u ++ v -> v <> "" ->
     match_here (v ++ token_text g ++ rest) = None).
Proof.
  revert before; induction s as [|c s IH]; intros before.
  - simpl. discriminate.
  - cbn [exec]. destruct (match_here (String c s)) as [[g' rest']|] eqn:Hm.
    + intros H; injection H as <- <- <-.
      apply match_here_sound in Hm as [Hin Hs].
      repeat split; auto.
      intros u v Huv Hv. destruct u; simpl in Huv; [now subst v|discriminate].
    + destruct (exec s) as [[[b g'] r']|] eqn:He; [|discriminate].
      intros H; injection H as <- <- <-.
      destruct (IH _ eq_refl) as (Hs & Hin & Hno).
      repeat split; auto.
      * cbn [append]. f_equal. exact Hs.
      * intros u v Huv Hv. destruct u as [|x u]; simpl in Huv.
        -- subst v. cbn [append]. rewrite <- Hs. exact Hm.
        -- injection Huv as _ Huv. now apply (Hno u v).
Qed.

Lemma exec_None (s : string) :
  exec s = None -> forall u v, s = u ++ v -> match_here v = None.
Proof.
  induction s as [|c s IH]; intros H u v Huv.
  - destruct u; [|discriminate]. simpl in Huv. now subst v.
  - cbn [exec] in H. destruct (match_here (String c s)) as [[g' rest']|] eqn:Hm;
      [discriminate|].
    destruct (exec s) as [[[b g'] r']|] eqn:He; [discriminate|].
    destruct u as [|x u]; simpl in Huv.
    + now subst v.
    + injection Huv as _ Huv. now apply (IH eq_refl u v).
Qed.

(** No occurrence starts inside another one: after its two opening braces
    an occurrence holds no opening brace, so a match that begins before a
    given occurrence ends before it. *)
Lemma no_straddle (g : string) :
  In g TOKEN_NAMES ->
  forall u x r, u <> "" -> u ++ String "{" (String "{" x) = token_text g ++ r ->
  exists w, u = token_text g ++ w.
Proof.
  intros Hin u x r Hu H. rewrite token_text_eq in H.
  assert (Hg : exists w, u = String "{" (String "{" (g ++ String "}" (String "}" w)))).
  { repeat (destruct Hin as [<-|Hin];
      [ cbn [append] in H;
        repeat (destruct u as [|? u];
                [ first [ now elim Hu | discriminate H ]
                | cbn [append] in H; injection H as -> H ]);
        cbn [append]; eexists; reflexivity |]).
    destruct Hin. }
  destruct Hg as [w ->]. exists w. now rewrite token_text_eq.
Qed.

Lemma exec_unfold (s : string) :
  exec s =
  match match_here s with
  | Some (g, rest) => Some (EmptyString, g, rest)
  | None =>
      match s with
      | EmptyString => None
      | String c s' =>
          match exec s' with
          | Some (before, g, rest) => Some (String c before, g, rest)
          | None => None
          end
      end
  end.
Proof. destruct s; reflexivity. Qed.

Lemma token_free_tail (c : ascii) (s : string) :
  token_free (String c s) -> token_free s.
Proof.
  intros H pre k post Hin ->. now apply (H (String c pre) k post Hin).
Qed.

Lemma token_free_no_match (s : string) :
  token_free s -> match_here s = None.
Proof.
  intros H. destruct (match_here s) as [[g r]|] eqn:Hm; [|reflexivity].
  apply match_here_sound in Hm as [Hin Hs].
  now elim (H "" g r Hin).
Qed.

Lemma token_free_exec (s : string) : token_free s <-> exec s = None.
Proof.
  split.
  - induction s as [|c s IH]; intros H; [reflexivity|].
    rewrite exec_unfold, (token_free_no_match _ H), (IH (token_free_tail _ _ H)).
    reflexivity.
  - intros H pre k post Hin ->.
    pose proof (exec_None _ H pre _ eq_refl) as Hm.
    now rewrite (match_here_complete k post Hin) in Hm.
Qed.

(** The literal before an occurrence is skipped and the occurrence found. *)
Lemma exec_literal_token (lit k rest : string) :
  token_free lit -> In k TOKEN_NAMES ->
  exec (lit ++ token_text k ++ rest) = Some (lit, k, rest).
Proof.
  intros Hfree Hin. induction lit as [|c lit IH].
  - cbn [append]. rewrite exec_unfold, (match_here_complete k rest Hin). reflexivity.
  - cbn [append]. rewrite exec_unfold.
    destruct (match_here (String c (lit ++ token_text k ++ rest))) as [[g r]|] eqn:Hm.
    + exfalso. apply match_here_sound in Hm as [Hg Hs].
      rewrite (token_text_eq k rest) in Hs.
      destruct (no_straddle g Hg (String c lit) _ r ltac:(discriminate) Hs) as [w Hw].
      now apply (Hfree "" g w Hg).
    + now rewrite (IH (token_free_tail _ _ Hfree)).
Qed.

Lemma well_cut_cons (lit0 k lit : string) (segs : list (string * string)) :
  well_cut lit0 ((k, lit) :: segs) <->
  token_free lit0 /\ In k TOKEN_NAMES /\ well_cut lit segs.
Proof.
  unfold well_cut. rewrite Forall_cons_iff. cbn [fst snd]. tauto.
Qed.

Lemma length_template_source (lit0 : string) (segs : list (string * string)) :
  (List.length segs <= String.length (template_source lit0 segs))%nat.
Proof.
  revert lit0; induction segs as [|[k lit] segs IH]; intros lit0; cbn [template_source].
  - cbn. lia.
  - rewrite token_text_eq, length_append. cbn [String.length List.length].
    rewrite length_append. cbn [String.length].
    specialize (IH lit). lia.
Qed.

Lemma replace_all_template (fn : string -> string) (segs : list (string * string)) :
  forall fuel lit0, well_cut lit0 segs -> (List.length segs <= fuel)%nat ->
  replace_all fuel fn (template_source lit0 segs) = template_filled fn lit0 segs.
Proof.
  induction segs as [|[k lit] segs IH]; intros fuel lit0 Hcut Hfuel.
  - cbn [template_source template_filled]. destruct Hcut as [Hfree _].
    apply token_free_exec in Hfree.
    destruct fuel; cbn [replace_all]; [reflexivity | now rewrite Hfree].
  - apply well_cut_cons in Hcut as (Hfree & Hin & Hcut).
    destruct fuel as [|fuel]; [cbn in Hfuel; lia|].
    cbn [template_source template_filled replace_all].
    rewrite (exec_literal_token _ _ _ Hfree Hin).
    rewrite (IH fuel lit Hcut); [reflexivity | cbn in Hfuel; lia].
Qed.

Lemma exec_loop_template (segs : list (string * string)) :
  forall fuel lit0, well_cut lit0 segs -> (List.length segs <= fuel)%nat ->
  exec_loop fuel (template_source lit0 segs) = map fst segs.
Proof.
  induction segs as [|[k lit] segs IH]; intros fuel lit0 Hcut Hfuel.
  - cbn [template_source map]. destruct Hcut as [Hfree _].
    apply token_free_exec in Hfree.
    destruct fuel; cbn [exec_loop]; [reflexivity | now rewrite Hfree].
  - apply well_cut_cons in Hcut as (Hfree & Hin & Hcut).
    destruct fuel as [|fuel]; [cbn in Hfuel; lia|].
    cbn [template_source map exec_loop fst].
    rewrite (exec_literal_token _ _ _ Hfree Hin).
    rewrite (IH fuel lit Hcut); [reflexivity | cbn in Hfuel; lia].
Qed.

(** The text before the leftmost match holds no occurrence. *)
Lemma exec_before_token_free (s before g rest : string) :
  exec s = Some (before, g, rest) -> token_free before.
Proof.
  intros H. destruct (exec_Some _ _ _ _ H) as (_ & _ & Hno).
  intros pre k post Hin Hb.
  assert (Hv : token_text k ++ post <> "") by (rewrite token_text_eq; discriminate).
  pose proof (Hno pre _ Hb Hv) as Hm.
  rewrite append_assoc, (match_here_complete k _ Hin) in Hm. discriminate.
Qed.

(** Every text is cut at its occurrences in one way at least. *)
Lemma every_text_is_cut (text : string) :
  exists lit0 segs, well_cut lit0 segs /\ text = template_source lit0 segs.
Proof.
  remember (String.length text) as n eqn:Hn.
  revert text Hn. induction n as [n IH] using lt_wf_ind. intros text Hn.
  destruct (exec text) as [[[before g] rest]|] eqn:He.
  - pose proof (exec_before_token_free _ _ _ _ He) as Hfree.
    destruct (exec_Some _ _ _ _ He) as (Hs & Hin & _).
    assert (Hlt : (String.length rest < n)%nat).
    { subst n. rewrite Hs, token_text_eq, length_append. cbn [String.length].
      rewrite length_append. cbn [String.length]. lia. }
    destruct (IH _ Hlt rest eq_refl) as (lit & segs & Hcut & Hrest).
    exists before, ((g, lit) :: segs). split.
    + apply well_cut_cons. auto.
    + cbn [template_source]. now rewrite <- Hrest.
  - exists text, []. split; [|reflexivity].
    split; [now apply token_free_exec | constructor].
Qed.

End Scanner.

(** ** What the formatter prints *)

Module Format.
Import Str StrFacts.

Lemma all_chars_app (f : ascii -> bool) (a b : string) :
  all_chars f (a ++ b) = all_chars f a && all_chars f b.
Proof.
  induction a as [|c a IH]; cbn [append all_chars]; [reflexivity|].
  now rewrite IH, andb_assoc.
Qed.

Lemma all_chars_weaken (f g : ascii -> bool) (s : string) :
  (forall c, f c = true -> g c = true) -> all_chars f s = true -> all_chars g s = true.
Proof.
  intros Hfg. induction s as [|c s IH]; cbn [all_chars]; [reflexivity|].
  intros H. apply andb_true_iff in H as [Hc Hs].
  now rewrite (Hfg _ Hc), (IH Hs).
Qed.

Lemma all_chars_occurs (f : ascii -> bool) (sub s : string) :
  all_chars f s = true -> occurs sub s -> all_chars f sub = true.
Proof.
  intros H (a & b & ->). rewrite !all_chars_app in H.
  apply andb_true_iff in H as [_ H]. now apply andb_true_iff in H as [H _].
Qed.

Lemma all_chars_replace_first (f : ascii -> bool) (pat repl s : string) :
  all_chars f repl = true -> all_chars f s = true ->
  all_chars f (replace_first pat repl s) = true.
Proof.
  intros Hr. induction s as [|c s IH]; intros Hs.
  - cbn [replace_first]. destruct (strip_prefix pat "") as [rest|] eqn:Hp; [|reflexivity].
    apply strip_prefix_Some in Hp. rewrite all_chars_app, Hr.
    destruct pat; [cbn in Hp; now subst rest | discriminate].
  - cbn [replace_first]. destruct (strip_prefix pat (String c s)) as [rest|] eqn:Hp.
    + apply strip_prefix_Some in Hp. rewrite Hp, all_chars_app in Hs.
      apply andb_true_iff in Hs as [_ Hs]. now rewrite all_chars_app, Hr, Hs.
    + cbn [all_chars] in Hs |- *. apply andb_true_iff in Hs as [Hc Hs].
      now rewrite Hc, (IH Hs).
Qed.

Lemma digit_char_ok (d : Z) : 0 <= d <= 9 -> digit_or_comma (Intl.digit_char d) = true.
Proof.
  intros H. unfold Intl.digit_char.
  assert (Hd : exists k, (k <= 9)%nat /\ Z.to_nat d = k) by (exists (Z.to_nat d); lia).
  destruct Hd as (k & Hk & ->).
  do 10 (destruct k as [|k]; [reflexivity|]). lia.
Qed.

Lemma grouped_chars (fuel : nat) : forall n,
  all_chars digit_or_comma (Intl.grouped fuel n) = true.
Proof.
  induction fuel as [|fuel IH]; intros n; cbn [Intl.grouped]; [reflexivity|].
  destruct (Z.ltb_spec n 1000).
  - destruct (Z.ltb_spec n 10); [|destruct (Z.ltb_spec n 100)]; cbn [all_chars].
    + destruct (Z.le_gt_cases 0 n).
      * rewrite digit_char_ok by lia. reflexivity.
      * unfold Intl.digit_char. destruct n; try lia. reflexivity.
    + rewrite !digit_char_ok; [reflexivity|..];
        Z.to_euclidean_division_equations; lia.
    + rewrite !digit_char_ok; [reflexivity|..];
        Z.to_euclidean_division_equations; lia.
  - rewrite all_chars_app, IH. cbn [all_chars andb].
    rewrite !digit_char_ok; [reflexivity|..];
      Z.to_euclidean_division_equations; lia.
Qed.

Lemma digit_or_comma_not_brace (c : ascii) :
  digit_or_comma c = true -> not_brace c = true.
Proof.
  unfold digit_or_comma, not_brace. intros H.
  destruct (Ascii.eqb_spec c "{") as [->|_]; [discriminate H|].
  destruct (Ascii.eqb_spec c "}") as [->|_]; [discriminate H|]. reflexivity.
Qed.

Lemma number_body_not_brace (x : JS.number) :
  all_chars not_brace (Intl.number_body x) = true.
Proof.
  destruct x; try reflexivity. cbn [Intl.number_body].
  apply (all_chars_weaken digit_or_comma); [apply digit_or_comma_not_brace|].
  apply grouped_chars.
Qed.

Lemma format_currency_not_brace (x : JS.number) :
  all_chars not_brace (Intl.format_currency x) = true.
Proof.
  unfold Intl.format_currency. rewrite !all_chars_app, number_body_not_brace.
  now destruct (Intl.shows_minus x).
Qed.

(** The formatted value starts with the minus sign or the currency symbol. *)
Lemma format_currency_head (x : JS.number) :
  exists r, Intl.format_currency x = String "$" r \/ Intl.format_currency x = String "-" r.
Proof.
  unfold Intl.format_currency. destruct (Intl.shows_minus x); cbn; eauto.
Qed.


Lemma strip_tilde (x : JS.number) :
  replace_first "~" "" (formatPrice x "~") = Intl.format_currency x.
Proof. reflexivity. Qed.

(** A string without braces holds no unresolved token syntax. *)
Lemma not_brace_no_token_syntax (s : string) :
  all_chars not_brace s = true -> ~ occurs "{{" s /\ ~ occurs "}}" s.
Proof.
  intros H. split; intros Ho; apply (all_chars_occurs _ _ _ H) in Ho; discriminate Ho.
Qed.

End Format.

(** ** The resolver *)

Module Resolver.
Import Str StrFacts Format.

Lemma resolveToken_unavailable_fallback (tokenType : string)
    (priceData : option ProductSpotSummary) (config : PriceTokenConfig) :
  unavailable priceData = true -> resolveToken tokenType priceData config = FALLBACK.
Proof.
  unfold unavailable, resolveToken. destruct priceData as [p|]; [|reflexivity].
  now intros ->.
Qed.

Lemma resolveToken_unrecognized (tokenType : string)
    (priceData : option ProductSpotSummary) (config : PriceTokenConfig) :
  ~ In tokenType TOKEN_NAMES -> resolveToken tokenType priceData config = FALLBACK.
Proof.
  intros Hn. unfold resolveToken. destruct priceData as [p|]; [|reflexivity].
  destruct (JS.leb (ask p) (JS.of_Z 0)); [reflexivity|].
  cbn [TOKEN_NAMES In] in Hn.
  repeat match goal with
  | |- context [String.eqb tokenType ?k] =>
      destruct (String.eqb_spec tokenType k) as [->|_]; [exfalso; tauto|]
  end.
  reflexivity.
Qed.

(** A recognized kind resolved against an available quote starts with the
    tilde, the currency symbol or the minus sign. *)
Lemma resolveToken_available_head (tokenType : string) (p : ProductSpotSummary)
    (config : PriceTokenConfig) :
  In tokenType TOKEN_NAMES -> JS.leb (ask p) (JS.of_Z 0) = false ->
  exists c r, resolveToken tokenType (Some p) config = String c r /\
              (c = "~" \/ c = "$" \/ c = "-")%char.
Proof.
  intros Hin Hav. unfold resolveToken. rewrite Hav.
  repeat (destruct Hin as [<-|Hin];
    [ cbn [String.eqb Ascii.eqb Bool.eqb orb]; unfold formatPrice; cbn [append];
      first [ eexists _, _; split; [reflexivity | now left]
            | match goal with
              | |- context [Intl.format_currency ?x ++ _] =>
                  destruct (format_currency_head x) as [r [-> | ->]]; cbn [append];
                  eexists _, _; (split; [reflexivity | tauto])
              | |- context [Intl.format_currency ?x] =>
                  destruct (format_currency_head x) as [r [-> | ->]]; cbn [append];
                  eexists _, _; (split; [reflexivity | tauto])
              end ] |]).
  destruct Hin.
Qed.

Lemma resolveToken_not_brace (tokenType : string)
    (priceData : option ProductSpotSummary) (config : PriceTokenConfig) :
  all_chars not_brace (resolveToken tokenType priceData config) = true.
Proof.
  unfold resolveToken. destruct priceData as [p|]; [|reflexivity].
  destruct (JS.leb (ask p) (JS.of_Z 0)); [reflexivity|].
  repeat match goal with
  | |- context [if ?b then _ else _] => destruct b
  end;
  unfold formatPrice;
  repeat first [ rewrite all_chars_app
               | rewrite all_chars_replace_first
               | rewrite format_currency_not_brace ];
  reflexivity.
Qed.

End Resolver.

(** ** The claims *)

Import Str StrFacts Scanner Format Resolver.

(** C1. Every text is cut at its well-formed occurrences (literals that
    hold no occurrence, separated by occurrences of recognized identifiers),
    and however it is cut, [replaceTokens] returns the literals unchanged and
    in their order, with each occurrence replaced by [resolveToken] of its
    kind.  A text that holds no well-formed occurrence is the case of no
    segment and is returned as it is. *)
Theorem replaceTokens_substitutes (text : string)
    (priceData : option ProductSpotSummary) (config : PriceTokenConfig) :
  (exists lit0 segs, well_cut lit0 segs /\ text = template_source lit0 segs) /\
  (forall lit0 segs, well_cut lit0 segs -> text = template_source lit0 segs ->
     replaceTokens text priceData config =
     template_filled (fun k => resolveToken k priceData config) lit0 segs).
Proof.
  split; [apply every_text_is_cut|].
  intros lit0 segs Hcut ->. unfold replaceTokens.
  apply replace_all_template; [exact Hcut | apply length_template_source].
Qed.

Lemma replaceTokens_substitutes_witness :
  replaceTokens "Costs {{CAPITAL_REQUIREMENT}} or {{BAR_PRICE}}, not {{NOT_A_TOKEN}}"
    (quote 30000) empty_config
  = "Costs ~$30,000 or $30,000, not {{NOT_A_TOKEN}}"
  /\ replaceTokens "{{NOT_A_TOKEN}}" (quote 30000) empty_config = "{{NOT_A_TOKEN}}".
Proof.
  split.
  - apply (proj2 (replaceTokens_substitutes _ (quote 30000) empty_config)
             "Costs " [("CAPITAL_REQUIREMENT", " or "); ("BAR_PRICE", ", not {{NOT_A_TOKEN}}")]).
    + repeat split; repeat constructor; cbn [fst snd In]; try tauto;
        apply token_free_exec; reflexivity.
    + reflexivity.
  - apply (proj2 (replaceTokens_substitutes _ (quote 30000) empty_config)
             "{{NOT_A_TOKEN}}" []).
    + split; [apply token_free_exec; reflexivity | constructor].
    + reflexivity.
Defined.

(** C2. When the quote is missing or its ask is not strictly positive,
    every token kind resolves to the fallback phrase, whatever the
    configuration. *)
Theorem resolveToken_unavailable (tokenType : string)
    (priceData : option ProductSpotSummary) (config : PriceTokenConfig) :
  priceData = None \/
  (exists p, priceData = Some p /\ JS.leb (ask p) (JS.of_Z 0) = true) ->
  resolveToken tokenType priceData config = "current market price".
Proof.
  intros H. apply resolveToken_unavailable_fallback.
  destruct H as [->|(p & -> & H)]; [reflexivity | exact H].
Qed.

Lemma resolveToken_unavailable_witness :
  resolveToken "SPOT_PRICE" (quote (-5)) empty_config = "current market price".
Proof.
  apply resolveToken_unavailable. right.
  exists {| ask := JS.of_Z (-5) |}. split; reflexivity.
Defined.

(** C3 (as stated it fails). A quote whose ask is NaN is not treated as
    unavailable: the guard [ask <= 0] is false for NaN and the value reaches
    the arithmetic and the formatter. *)
Lemma nan_ask_is_formatted :
  resolveToken "CAPITAL_REQUIREMENT" nan_quote empty_config = "~$NaN" /\
  resolveToken "CAPITAL_REQUIREMENT" (infinite_quote false) empty_config = "~$∞".
Proof. split; reflexivity. Qed.

(** C3 (amended). Of the non-finite asks only -Infinity is treated as
    unavailable: for a recognized kind the fallback phrase is returned
    exactly when the ask is -Infinity; NaN and +Infinity pass the guard. *)
Theorem resolveToken_nonfinite (x : JS.number) (tokenType : string)
    (config : PriceTokenConfig) :
  JS.is_finite x = false -> In tokenType TOKEN_NAMES ->
  (resolveToken tokenType (Some {| ask := x |}) config = "current market price"
   <-> x = S754_infinity true).
Proof.
  intros Hx Hin. split.
  - intros H. destruct x as [s|[|]| |s m e]; try discriminate Hx; try reflexivity; exfalso.
    + destruct (resolveToken_available_head tokenType {| ask := S754_infinity false |}
                  config Hin eq_refl) as (c & r & Hr & Hc).
      rewrite Hr in H. injection H as -> _. intuition discriminate.
    + destruct (resolveToken_available_head tokenType {| ask := S754_nan |}
                  config Hin eq_refl) as (c & r & Hr & Hc).
      rewrite Hr in H. injection H as -> _. intuition discriminate.
  - intros ->. now apply resolveToken_unavailable_fallback.
Qed.

Lemma resolveToken_nonfinite_witness :
  resolveToken "BAR_PRICE" (infinite_quote true) empty_config = "current market price"
  <-> S754_infinity true = S754_infinity true.
Proof.
  apply (resolveToken_nonfinite (S754_infinity true) "BAR_PRICE" empty_config).
  - reflexivity.
  - cbn; tauto.
Defined.

(** C5. The scenario of the specification: ask 30000 and the default
    configuration. *)
Theorem scenario_ask_30000 :
  resolveToken "CAPITAL_REQUIREMENT" (quote 30000) empty_config = "~$30,000" /\
  resolveToken "CAPITAL_REQUIREMENT_RANGE" (quote 30000) empty_config = "~$28,500–$31,500" /\
  resolveToken "BAR_PRICE" (quote 30000) empty_config = "$30,000" /\
  resolveToken "SPOT_PRICE" (quote 30000) empty_config = "~$30".
Proof. repeat split; vm_compute; reflexivity. Qed.

(** C8. A recognized kind resolved against a valid quote and a positive
    configuration yields a string (the function is total) that holds neither
    opening nor closing double braces. *)
Theorem resolveToken_no_token_syntax (tokenType : string) (p : ProductSpotSummary)
    (config : PriceTokenConfig) :
  In tokenType TOKEN_NAMES -> valid_quote p -> positive_config config ->
  ~ occurs "{{" (resolveToken tokenType (Some p) config) /\
  ~ occurs "}}" (resolveToken tokenType (Some p) config).
Proof.
  intros _ _ _. apply not_brace_no_token_syntax, resolveToken_not_brace.
Qed.

Lemma resolveToken_no_token_syntax_witness :
  ~ occurs "{{" (resolveToken "ONE_OZ_BAR_RANGE" (quote 30000) empty_config) /\
  ~ occurs "}}" (resolveToken "ONE_OZ_BAR_RANGE" (quote 30000) empty_config).
Proof.
  apply (resolveToken_no_token_syntax "ONE_OZ_BAR_RANGE" {| ask := JS.of_Z 30000 |}
           empty_config).
  - cbn; tauto.
  - reflexivity.
  - split; reflexivity.
Defined.

(** C9. However a text is cut at its well-formed occurrences, [findTokens]
    returns the kinds of the occurrences in their order, duplicates
    included, and [hasTokens] is true exactly when there is one. *)
Theorem findTokens_hasTokens (text : string) :
  (exists lit0 segs, well_cut lit0 segs /\ text = template_source lit0 segs) /\
  (forall lit0 segs, well_cut lit0 segs -> text = template_source lit0 segs ->
     findTokens text = map fst segs) /\
  (hasTokens text = true <-> findTokens text <> []).
Proof.
  split; [apply every_text_is_cut|].
  assert (Hfind : forall lit0 segs, well_cut lit0 segs -> text = template_source lit0 segs ->
                  findTokens text = map fst segs).
  { intros lit0 segs Hcut ->. unfold findTokens.
    apply exec_loop_template; [exact Hcut | apply length_template_source]. }
  split; [exact Hfind|].
  destruct (every_text_is_cut text) as (lit0 & segs & Hcut & Htext).
  rewrite (Hfind _ _ Hcut Htext). unfold hasTokens. subst text.
  destruct segs as [|[k lit] segs].
  - destruct Hcut as [Hfree _]. apply token_free_exec in Hfree.
    cbn [template_source map]. rewrite Hfree. split; [discriminate | congruence].
  - apply well_cut_cons in Hcut as (Hfree & Hin & _).
    cbn [template_source map]. rewrite (exec_literal_token _ _ _ Hfree Hin).
    split; [discriminate | reflexivity].
Qed.

Lemma findTokens_hasTokens_witness :
  findTokens "{{SPOT_PRICE}} vs {{CAPITAL_REQUIREMENT_RANGE}} vs {{SPOT_PRICE}}"
  = ["SPOT_PRICE"; "CAPITAL_REQUIREMENT_RANGE"; "SPOT_PRICE"].
Proof.
  apply (proj1 (proj2 (findTokens_hasTokens _)) ""
           [("SPOT_PRICE", " vs "); ("CAPITAL_REQUIREMENT_RANGE", " vs "); ("SPOT_PRICE", "")]).
  - repeat split; repeat constructor; cbn [fst snd In]; try tauto;
      apply token_free_exec; reflexivity.
  - reflexivity.
Defined.

(** C10. The fallback phrase is returned exactly when the quote is
    unavailable (missing, or [ask <= 0]) or the kind is not one of the eight
    identifiers; this holds for every configuration. *)
Theorem fallback_iff_unavailable_or_unrecognized (tokenType : string)
    (priceData : option ProductSpotSummary) (config : PriceTokenConfig) :
  resolveToken tokenType priceData config = "current market price" <->
  (unavailable priceData = true \/ ~ In tokenType TOKEN_NAMES).
Proof.
  split.
  - intros H. destruct (unavailable priceData) eqn:Hu; [now left | right].
    intros Hin. destruct priceData as [p|]; [|discriminate Hu].
    destruct (resolveToken_available_head tokenType p config Hin Hu)
      as (c & r & Hr & Hc).
    rewrite Hr in H. injection H as -> _. intuition discriminate.
  - intros [H|H];
      [now apply resolveToken_unavailable_fallback | now apply resolveToken_unrecognized].
Qed.

(** ** Binary64 arithmetic computes the nearest double *)

Module Binary64Facts.
Import Binary64.

Lemma rne_div_spec N D : 0 < D -> nearest_even N D (rne_div N D).
Proof.
  intros HD. unfold rne_div, nearest_even.
  pose proof (Z.div_mod N D ltac:(lia)) as Hdm.
  pose proof (Z.mod_pos_bound N D HD) as Hr.
  set (q := N / D) in *. set (r := N mod D) in *.
  destruct (Z.compare_spec (2 * r) D) as [He|Hl|Hg].
  - destruct (Z.even q) eqn:Hev.
    + repeat split; intros; try assumption; nia.
    + assert (Hodd : Z.even (q + 1) = true).
      { rewrite Z.even_add, Hev. reflexivity. }
      repeat split; intros; try assumption; nia.
  - repeat split; intros; nia.
  - repeat split; intros; nia.
Qed.

Lemma nearest_even_le N1 D1 q1 N2 D2 q2 :
  0 < D1 -> 0 < D2 -> N1 * D2 <= N2 * D1 ->
  nearest_even N1 D1 q1 -> nearest_even N2 D2 q2 -> q1 <= q2.
Proof.
  intros H1 H2 Hle (Hb1 & Hu1 & Hl1) (Hb2 & Hu2 & Hl2).
  destruct (Z.le_gt_cases q1 q2) as [|Hgt]; [assumption|exfalso].
  assert (Ha : (2 * q1 - 1) * D1 * D2 <= 2 * N1 * D2) by nia.
  assert (Hb : 2 * N2 * D1 <= (2 * q2 + 1) * D2 * D1) by nia.
  assert (Hq : q1 = q2 + 1) by nia.
  subst q1.
  assert (E1 : 2 * N1 = (2 * (q2 + 1) - 1) * D1) by nia.
  assert (E2 : 2 * N2 = (2 * q2 + 1) * D2) by nia.
  specialize (Hl1 E1). specialize (Hu2 E2).
  rewrite Z.even_add, Hu2 in Hl1. discriminate.
Qed.

Lemma nearest_even_unique N D q1 q2 :
  0 < D -> nearest_even N D q1 -> nearest_even N D q2 -> q1 = q2.
Proof.
  intros HD H1 H2.
  pose proof (nearest_even_le N D q1 N D q2 HD HD ltac:(lia) H1 H2).
  pose proof (nearest_even_le N D q2 N D q1 HD HD ltac:(lia) H2 H1).
  lia.
Qed.

Lemma rne_div_le N1 D1 N2 D2 :
  0 < D1 -> 0 < D2 -> N1 * D2 <= N2 * D1 -> rne_div N1 D1 <= rne_div N2 D2.
Proof.
  intros H1 H2 H.
  apply (nearest_even_le N1 D1 _ N2 D2 _ H1 H2 H); apply rne_div_spec; assumption.
Qed.

Lemma rne_div_ratio N1 D1 N2 D2 :
  0 < D1 -> 0 < D2 -> N1 * D2 = N2 * D1 -> rne_div N1 D1 = rne_div N2 D2.
Proof.
  intros H1 H2 H.
  pose proof (rne_div_le N1 D1 N2 D2 H1 H2 ltac:(lia)).
  pose proof (rne_div_le N2 D2 N1 D1 H2 H1 ltac:(lia)). lia.
Qed.

Lemma rne_div_exact z D : 0 < D -> rne_div (z * D) D = z.
Proof.
  intros HD. apply (nearest_even_unique (z * D) D); auto using rne_div_spec.
  repeat split; intros; nia.
Qed.

Lemma rne_div_nonneg N D : 0 <= N -> 0 < D -> 0 <= rne_div N D.
Proof.
  intros HN HD. rewrite <- (rne_div_exact 0 D HD). apply rne_div_le; lia.
Qed.

(* bounds by integers *)
Lemma rne_div_ge z N D : 0 < D -> z * D <= N -> z <= rne_div N D.
Proof.
  intros HD H. rewrite <- (rne_div_exact z D HD). apply rne_div_le; nia.
Qed.

Lemma rne_div_le_int z N D : 0 < D -> N <= z * D -> rne_div N D <= z.
Proof.
  intros HD H. rewrite <- (rne_div_exact z D HD). apply rne_div_le; nia.
Qed.

Lemma pow2_pos k : 0 < 2 ^ k \/ (k < 0 /\ 2 ^ k = 0).
Proof.
  destruct (Z.le_gt_cases 0 k).
  - left. now apply Z.pow_pos_nonneg.
  - right. split; [lia|]. now apply Z.pow_neg_r.
Qed.

Lemma pow2_gt0 k : 0 <= k -> 0 < 2 ^ k.
Proof. intros. now apply Z.pow_pos_nonneg. Qed.

Lemma pow2_le a b : 0 <= a <= b -> 2 ^ a <= 2 ^ b.
Proof. intros. apply Z.pow_le_mono_r; lia. Qed.

Lemma pow2_lt a b : 0 <= a < b -> 2 ^ a < 2 ^ b.
Proof. intros. apply Z.pow_lt_mono_r; lia. Qed.

Lemma pow2_add a b : 0 <= a -> 0 <= b -> 2 ^ (a + b) = 2 ^ a * 2 ^ b.
Proof. intros. now apply Z.pow_add_r. Qed.

Lemma scale_exp_nonneg N D : 0 <= scale_exp N D.
Proof. unfold scale_exp. lia. Qed.

Lemma div_le_cross N1 D1 N2 D2 :
  0 < D1 -> 0 < D2 -> N1 * D2 <= N2 * D1 -> N1 / D1 <= N2 / D2.
Proof.
  intros H1 H2 H. apply Z.div_le_lower_bound; [assumption|].
  pose proof (Z.mul_div_le N1 D1 H1). nia.
Qed.

Lemma scale_exp_le N1 D1 N2 D2 :
  0 < D1 -> 0 < D2 -> N1 * D2 <= N2 * D1 -> scale_exp N1 D1 <= scale_exp N2 D2.
Proof.
  intros H1 H2 H. unfold scale_exp.
  pose proof (Z.log2_le_mono _ _ (div_le_cross _ _ _ _ H1 H2 H)). lia.
Qed.

(** Below the next power of two. *)
Lemma scale_exp_upper N D :
  0 <= N -> 0 < D -> N < 2 ^ (scale_exp N D + 53) * D.
Proof.
  intros HN HD. set (k := scale_exp N D).
  assert (Hk : Z.log2 (N / D) + 1 <= k + 53) by (unfold k, scale_exp; lia).
  assert (Hq : N / D < 2 ^ (k + 53)).
  { destruct (Z.eq_dec (N / D) 0) as [->|Hnz].
    - apply pow2_gt0. pose proof (scale_exp_nonneg N D). lia.
    - assert (0 < N / D) by (pose proof (Z.div_pos N D HN HD); lia).
      pose proof (Z.log2_spec _ H) as [_ Hlt].
      eapply Z.lt_le_trans; [exact Hlt|].
      apply pow2_le. pose proof (Z.log2_nonneg (N / D)). lia. }
  pose proof (Z.mod_pos_bound N D HD). pose proof (Z.div_mod N D ltac:(lia)). nia.
Qed.

(** In the normal range, at least the previous power of two. *)
Lemma scale_exp_lower N D :
  0 <= N -> 0 < D -> 0 < scale_exp N D -> 2 ^ (scale_exp N D + 52) * D <= N.
Proof.
  intros HN HD Hk. unfold scale_exp in *.
  assert (Hl : Z.log2 (N / D) - 52 > 0) by lia.
  replace (Z.max 0 (Z.log2 (N / D) - 52) + 52) with (Z.log2 (N / D)) by lia.
  assert (0 < N / D).
  { destruct (Z.eq_dec (N / D) 0) as [E|E]; [rewrite E in Hl; cbn in Hl; lia|].
    pose proof (Z.div_pos N D HN HD); lia. }
  pose proof (Z.log2_spec _ H) as [Hle _].
  pose proof (Z.mul_div_le N D HD). nia.
Qed.

Lemma round_raw_le N1 D1 N2 D2 :
  0 <= N1 -> 0 < D1 -> 0 <= N2 -> 0 < D2 -> N1 * D2 <= N2 * D1 ->
  round_raw N1 D1 <= round_raw N2 D2.
Proof.
  intros HN1 H1 HN2 H2 H.
  pose proof (scale_exp_le _ _ _ _ H1 H2 H) as Hk.
  pose proof (scale_exp_nonneg N1 D1) as Hk1.
  unfold round_raw.
  set (k1 := scale_exp N1 D1) in *. set (k2 := scale_exp N2 D2) in *.
  pose proof (pow2_gt0 k1 Hk1) as Hp1.
  pose proof (pow2_gt0 k2 ltac:(lia)) as Hp2.
  destruct (Z.eq_dec k1 k2) as [E|E].
  - rewrite <- E. apply Z.mul_le_mono_nonneg_l; [lia|].
    apply rne_div_le; nia.
  - assert (Hlt : k1 < k2) by lia.
    pose proof (scale_exp_upper N1 D1 HN1 H1) as Hu. fold k1 in Hu.
    pose proof (scale_exp_lower N2 D2 HN2 H2 ltac:(fold k2; lia)) as Hl. fold k2 in Hl.
    rewrite pow2_add in Hu, Hl by lia.
    assert (Ha : rne_div N1 (D1 * 2 ^ k1) <= 2 ^ 53) by (apply rne_div_le_int; nia).
    assert (Hb : 2 ^ 52 <= rne_div N2 (D2 * 2 ^ k2)) by (apply rne_div_ge; nia).
    assert (Hc : 2 ^ k1 * 2 <= 2 ^ k2).
    { replace (2 ^ k1 * 2) with (2 ^ (k1 + 1)) by (rewrite pow2_add by lia; reflexivity).
      apply pow2_le. lia. }
    change (2 ^ 53) with (2 * 2 ^ 52) in Ha.
    assert (0 < 2 ^ 52) by reflexivity. nia.
Qed.

Lemma clamp_le a b : a <= b -> clamp a <= clamp b.
Proof.
  unfold clamp. intros H.
  destruct (Z.ltb_spec a OVER), (Z.ltb_spec b OVER); lia.
Qed.

Lemma round_ulps_le N1 D1 N2 D2 :
  0 <= N1 -> 0 < D1 -> 0 <= N2 -> 0 < D2 -> N1 * D2 <= N2 * D1 ->
  round_ulps N1 D1 <= round_ulps N2 D2.
Proof. intros. apply clamp_le, round_raw_le; assumption. Qed.

Lemma round_raw_nonneg N D : 0 <= N -> 0 < D -> 0 <= round_raw N D.
Proof.
  intros HN HD. unfold round_raw.
  pose proof (pow2_gt0 _ (scale_exp_nonneg N D)).
  pose proof (rne_div_nonneg N (D * 2 ^ scale_exp N D) HN ltac:(nia)). nia.
Qed.

Lemma round_raw_exact z D : representable z -> 0 < D -> round_raw (z * D) D = z.
Proof.
  intros (m & j & Hm & Hj & ->) HD. unfold round_raw.
  set (k := scale_exp (m * 2 ^ j * D) D).
  destruct (Z.eq_dec m 0) as [->|Hm0].
  - assert (R0 : forall X, 0 < X -> rne_div 0 X = 0)
      by (intros X HX; exact (rne_div_exact 0 X HX)).
    change (0 * 2 ^ j * D) with 0.
    rewrite R0 by (pose proof (pow2_gt0 k (scale_exp_nonneg _ _)); nia). lia.
  - assert (Hkj : 0 <= k <= j).
    { unfold k, scale_exp. rewrite Z.div_mul by lia.
      rewrite Z.log2_mul_pow2 by lia.
      assert (Z.log2 m < 53) by (apply Z.log2_lt_pow2; lia). lia. }
    replace (m * 2 ^ j * D) with ((m * 2 ^ (j - k)) * (D * 2 ^ k)).
    + rewrite rne_div_exact by (pose proof (pow2_gt0 k ltac:(lia)); nia).
      replace j with (k + (j - k)) at 2 by lia. rewrite pow2_add by lia. ring.
    + replace j with ((j - k) + k) at 2 by lia. rewrite pow2_add by lia. ring.
Qed.

Ltac compare_to_order :=
  repeat match goal with
  | H : (?a ?= ?b) = Lt |- _ => change (a < b) in H
  | H : (?a ?= ?b) = Gt |- _ => change (a > b) in H
  | H : (_ ?= _) = Eq |- _ => apply Z.compare_eq_iff in H
  | |- (?a ?= ?b) = Lt => change (a < b)
  | |- (?a ?= ?b) = Gt => change (a > b)
  | |- (_ ?= _) = Eq => apply Z.compare_eq_iff
  end.

Lemma shr_1_located Nn X mrs :
  0 < X -> located_record Nn X mrs -> located_record Nn (2 * X) (shr_1 mrs).
Proof.
  intros HX [Hm H]. destruct mrs as [m r s]. cbn [shr_m] in Hm.
  destruct m as [|p|p]; [| |lia].
  - destruct r, s; unfold located_record, located in *;
      cbn [shr_1 shr_m loc_of_shr_record orb] in *;
      repeat match goal with H : _ /\ _ |- _ => destruct H end;
      compare_to_order; repeat split; compare_to_order; lia.
  - destruct p as [p|p|]; destruct r, s; unfold located_record, located in *;
      cbn [shr_1 shr_m loc_of_shr_record orb] in *;
      try change (Z.pos p~1) with (2 * Z.pos p + 1) in *;
      try change (Z.pos p~0) with (2 * Z.pos p) in *;
      repeat match goal with H : _ /\ _ |- _ => destruct H end;
      compare_to_order; repeat split; compare_to_order; lia.
Qed.

Lemma iter_shr_1_located p : forall Nn X mrs,
  0 < X -> located_record Nn X mrs ->
  located_record Nn (X * 2 ^ Zpos p) (iter_pos shr_1 p mrs).
Proof.
  induction p as [p IH|p IH|]; intros Nn X mrs HX H; cbn [iter_pos].
  - replace (X * 2 ^ Z.pos p~1) with ((2 * X) * 2 ^ Zpos p * 2 ^ Zpos p).
    + apply IH; [pose proof (pow2_gt0 (Zpos p) ltac:(lia)); nia|].
      apply IH; [lia|]. now apply shr_1_located.
    + replace (Z.pos p~1) with (1 + Z.pos p + Z.pos p) by lia.
      rewrite !pow2_add by lia. change (2 ^ 1) with 2. ring.
  - replace (X * 2 ^ Z.pos p~0) with (X * 2 ^ Zpos p * 2 ^ Zpos p).
    + apply IH; [pose proof (pow2_gt0 (Zpos p) ltac:(lia)); nia|]. now apply IH.
    + replace (Z.pos p~0) with (Z.pos p + Z.pos p) by lia.
      rewrite pow2_add by lia. ring.
  - change (2 ^ 1) with 2. replace (X * 2) with (2 * X) by ring.
    now apply shr_1_located.
Qed.

Lemma shr_located Nn X mrs e n :
  0 < X -> 0 <= n -> located_record Nn X mrs ->
  located_record Nn (X * 2 ^ n) (fst (shr mrs e n)) /\ snd (shr mrs e n) = e + n.
Proof.
  intros HX Hn H. destruct n as [|p|p]; [| |lia]; cbn [shr fst snd].
  - split; [|lia]. now rewrite Z.mul_1_r.
  - split; [|reflexivity]. now apply iter_shr_1_located.
Qed.

Lemma located_record_of_loc Nn X m l :
  0 <= m -> located Nn X m l -> located_record Nn X (shr_record_of_loc m l).
Proof.
  intros Hm H. split.
  - now destruct l as [|[| |]].
  - now destruct l as [|[| |]].
Qed.

Lemma digits2_pos_spec p :
  2 ^ (Zpos (digits2_pos p) - 1) <= Zpos p < 2 ^ Zpos (digits2_pos p).
Proof.
  induction p as [p IH|p IH|]; cbn [digits2_pos]; [| |cbn; lia];
    rewrite Pos2Z.inj_succ;
    replace (Z.succ (Zpos (digits2_pos p)) - 1) with (1 + (Zpos (digits2_pos p) - 1)) by lia;
    replace (Z.succ (Zpos (digits2_pos p))) with (1 + Zpos (digits2_pos p)) by lia;
    rewrite !pow2_add by lia; change (2 ^ 1) with 2; lia.
Qed.

Lemma Zdigits2_spec m : 0 < m -> 2 ^ (Zdigits2 m - 1) <= m < 2 ^ Zdigits2 m.
Proof. destruct m as [|p|p]; try lia. intros _. apply digits2_pos_spec. Qed.

Lemma Zdigits2_pos m : 0 < m -> 0 < Zdigits2 m.
Proof. destruct m; cbn; lia. Qed.

Lemma Zdigits2_unique m d : 0 < d -> 2 ^ (d - 1) <= m < 2 ^ d -> Zdigits2 m = d.
Proof.
  intros Hd [Hl Hu].
  assert (Hm : 0 < m) by (pose proof (pow2_gt0 (d - 1) ltac:(lia)); lia).
  pose proof (Zdigits2_spec m Hm) as [Hl' Hu'].
  pose proof (Zdigits2_pos m Hm).
  destruct (Z.lt_trichotomy (Zdigits2 m) d) as [H1|[H1|H1]]; [exfalso|assumption|exfalso].
  - pose proof (pow2_le (Zdigits2 m) (d - 1) ltac:(lia)). lia.
  - pose proof (pow2_le d (Zdigits2 m - 1) ltac:(lia)). lia.
Qed.

Lemma fexp_64 k : fexp 53 1024 k = fexp64 k.
Proof. reflexivity. Qed.

Lemma round_nearest_even_located Nn X m l :
  0 < X -> located Nn X m l -> round_nearest_even m l = rne_div Nn X.
Proof.
  intros HX H. apply (nearest_even_unique Nn X); [assumption| |now apply rne_div_spec].
  unfold nearest_even. destruct l as [|c]; cbn [located round_nearest_even] in H |- *.
  - subst Nn. repeat split; intros; nia.
  - destruct H as [[H1 H2] Hc]. destruct c; compare_to_order.
    + destruct (Z.even m) eqn:Hev.
      * repeat split; intros; try assumption; nia.
      * assert (Z.even (m + 1) = true) by (rewrite Z.even_add, Hev; reflexivity).
        repeat split; intros; try assumption; nia.
    + repeat split; intros; nia.
    + repeat split; intros; nia.
Qed.

Lemma located_bounds Nn X m l :
  0 < X -> located Nn X m l -> m * X <= Nn < (m + 1) * X.
Proof. intros HX H. destruct l; cbn [located] in H; [subst; lia | lia]. Qed.

Lemma binary_round_aux_unfold s m e l :
  binary_round_aux 53 1024 s m e l =
  let r1 := shr_fexp 53 1024 m e l in
  let r2 := shr_fexp 53 1024
              (round_nearest_even (shr_m (fst r1)) (loc_of_shr_record (fst r1)))
              (snd r1) loc_Exact in
  finish s (fst r2) (snd r2).
Proof.
  unfold binary_round_aux, finish.
  destruct (shr_fexp 53 1024 m e l) as [mrs' e']. cbn [fst snd].
  destruct (shr_fexp 53 1024 _ e' loc_Exact) as [mrs'' e'']. reflexivity.
Qed.

Lemma renormalize s f E :
  0 <= f <= 2 ^ 53 -> -1074 <= E ->
  (-1074 < E -> 2 ^ 52 <= f) ->
  let r2 := shr_fexp 53 1024 f E loc_Exact in
  finish s (fst r2) (snd r2) = assemble s f E.
Proof.
  intros Hf HE Hn. unfold shr_fexp, assemble. rewrite fexp_64.
  destruct (Z.eqb_spec f 0) as [->|Hf0].
  - cbn [Zdigits2]. unfold fexp64.
    destruct (Z.max (0 + E - 53) (-1074) - E) as [|p|p] eqn:Hs; try lia; reflexivity.
  - destruct (Z.ltb_spec f (2 ^ 53)) as [Hlt|Hge].
    + assert (Hd : Zdigits2 f <= 53).
      { pose proof (Zdigits2_spec f ltac:(lia)) as [Hl _].
        destruct (Z.le_gt_cases (Zdigits2 f) 53); [assumption|exfalso].
        pose proof (pow2_le 53 (Zdigits2 f - 1) ltac:(lia)). lia. }
      unfold fexp64.
      destruct (Z.max (Zdigits2 f + E - 53) (-1074) - E) as [|p|p] eqn:Hs; try lia;
        cbn [shr fst snd shr_record_of_loc]; unfold finish; cbn [shr_m];
        destruct f as [|q|q]; try lia; reflexivity.
    + assert (f = 2 ^ 53) by lia. subst f.
      change (Zdigits2 (2 ^ 53)) with 54. unfold fexp64.
      replace (Z.max (54 + E - 53) (-1074) - E) with 1 by lia.
      cbn [shr fst snd shr_record_of_loc]. unfold finish.
      replace (E + 1 <=? 971) with (E + 1 <=? 1024 - 53) by reflexivity.
      reflexivity.
Qed.

Lemma binary_round_aux_correct s m e l Nn X :
  0 <= m -> 0 < X -> located Nn X m l ->
  e <= fexp64 (Zdigits2 m + e) ->
  binary_round_aux 53 1024 s m e l =
    assemble s (rne_div Nn (X * 2 ^ (fexp64 (Zdigits2 m + e) - e)))
      (fexp64 (Zdigits2 m + e)) /\
  0 <= rne_div Nn (X * 2 ^ (fexp64 (Zdigits2 m + e) - e)) <= 2 ^ 53 /\
  (-1074 < fexp64 (Zdigits2 m + e) ->
   2 ^ 52 <= rne_div Nn (X * 2 ^ (fexp64 (Zdigits2 m + e) - e))).
Proof.
  intros Hm HX Hloc Hpre.
  set (E := fexp64 (Zdigits2 m + e)) in *.
  set (X' := X * 2 ^ (E - e)).
  assert (HX' : 0 < X') by (pose proof (pow2_gt0 (E - e) ltac:(lia)); unfold X'; nia).
  assert (HXX : X <= X') by (pose proof (pow2_gt0 (E - e) ltac:(lia)); unfold X'; nia).
  pose proof (located_bounds _ _ _ _ HX Hloc) as Hb.
  assert (HE : -1074 <= E) by (unfold E, fexp64; lia).
  (* the mantissa is below 2^53 of the coarser unit *)
  assert (Hup : Nn < 2 ^ 53 * X').
  { destruct (Z.eq_dec m 0) as [->|Hm0].
    - assert (0 < 2 ^ 53) by reflexivity. nia.
    - pose proof (Zdigits2_spec m ltac:(lia)) as [Hl Hu].
      pose proof (Zdigits2_pos m ltac:(lia)) as Hd.
      destruct (Z.le_gt_cases 53 (Zdigits2 m)) as [Hd53|Hd53].
      + assert (Hge : Zdigits2 m - 53 <= E - e) by (unfold E, fexp64; lia).
        pose proof (pow2_le (Zdigits2 m - 53) (E - e) ltac:(lia)) as Hp.
        assert (Hs : 2 ^ Zdigits2 m = 2 ^ 53 * 2 ^ (Zdigits2 m - 53)).
        { rewrite <- pow2_add by lia. f_equal. lia. }
        pose proof (pow2_gt0 (Zdigits2 m - 53) ltac:(lia)).
        assert (0 < 2 ^ 53) by reflexivity. unfold X'. nia.
      + pose proof (pow2_le (Zdigits2 m) 53 ltac:(lia)). nia. }
  assert (Hlow : -1074 < E -> 2 ^ 52 * X' <= Nn).
  { intros HEn.
    assert (Hm0 : m <> 0).
    { intros ->. cbn [Zdigits2] in E. unfold E, fexp64 in *. lia. }
    pose proof (Zdigits2_spec m ltac:(lia)) as [Hl Hu].
    assert (HEe : E - e = Zdigits2 m - 53) by (unfold E, fexp64 in *; lia).
    assert (Hs : 2 ^ (Zdigits2 m - 1) = 2 ^ 52 * 2 ^ (E - e)).
    { rewrite <- pow2_add by lia. f_equal. lia. }
    unfold X'. assert (0 < 2 ^ 52) by reflexivity. nia. }
  assert (HNn : 0 <= Nn) by nia.
  assert (Hf : 0 <= rne_div Nn X' <= 2 ^ 53).
  { split; [now apply rne_div_nonneg | apply rne_div_le_int; lia]. }
  assert (Hfl : -1074 < E -> 2 ^ 52 <= rne_div Nn X').
  { intros HEn. apply rne_div_ge; [assumption | now apply Hlow]. }
  split; [|split; assumption].
  rewrite binary_round_aux_unfold. cbv zeta.
  pose proof (shr_located Nn X (shr_record_of_loc m l) e (E - e) HX ltac:(lia)
                (located_record_of_loc _ _ _ _ Hm Hloc)) as [[Hm' Hl'] Hsnd].
  assert (Hr1 : shr_fexp 53 1024 m e l = shr (shr_record_of_loc m l) e (E - e)) by reflexivity.
  rewrite Hr1, Hsnd.
  rewrite (round_nearest_even_located Nn X' _ _ HX' Hl').
  replace (e + (E - e)) with E by lia.
  apply (renormalize s (rne_div Nn X') E Hf HE Hfl).
Qed.

Lemma OVER_eq : OVER = 2 ^ 53 * 2 ^ 2045.
Proof. reflexivity. Qed.

Lemma valid_finite s m e :
  valid_binary 53 1024 (S754_finite s m e) = true <->
  fexp64 (Zpos (digits2_pos m) + e) = e /\ e <= 971.
Proof.
  cbn [valid_binary]. unfold bounded, canonical_mantissa. rewrite fexp_64.
  rewrite andb_true_iff, Z.eqb_eq, Z.leb_le. change (1024 - 53) with 971. tauto.
Qed.

Lemma valid_finite_bounds s m e :
  valid_binary 53 1024 (S754_finite s m e) = true ->
  -1074 <= e <= 971 /\ Zpos m < 2 ^ 53 /\ (-1074 < e -> 2 ^ 52 <= Zpos m) /\
  Zpos (digits2_pos m) <= 53 /\ (-1074 < e -> Zpos (digits2_pos m) = 53).
Proof.
  intros H. apply valid_finite in H as [Hc He]. unfold fexp64 in Hc.
  pose proof (digits2_pos_spec m) as [Hl Hu].
  assert (Hd : Zpos (digits2_pos m) <= 53) by lia.
  repeat split; try lia.
  - pose proof (pow2_le (Zpos (digits2_pos m)) 53 ltac:(lia)). lia.
  - intros Hn. assert (Hd53 : Zpos (digits2_pos m) = 53) by lia.
    rewrite Hd53 in Hl. exact Hl.
Qed.

Lemma assemble_facts s f E :
  0 <= f <= 2 ^ 53 -> -1074 <= E -> (-1074 < E -> 2 ^ 52 <= f) ->
  ordinary (assemble s f E) /\ sign_bit (assemble s f E) = s /\
  ord (assemble s f E) = cond_Zopp s (clamp (f * 2 ^ (E + 1074))).
Proof.
  intros Hf HE Hn. unfold assemble, ordinary.
  assert (H52 : 2 ^ 53 = 2 * 2 ^ 52) by reflexivity.
  assert (P52 : 0 < 2 ^ 52) by reflexivity.
  assert (Hpow : 0 < 2 ^ (E + 1074)) by (apply pow2_gt0; lia).
  destruct (Z.eqb_spec f 0) as [->|Hf0].
  - repeat split. cbn [ord Z.mul]. unfold clamp. now destruct s.
  - destruct (Z.ltb_spec f (2 ^ 53)) as [Hlt|Hge].
    + destruct (Z.leb_spec E 971) as [HE9|HE9].
      * assert (Hcl : clamp (f * 2 ^ (E + 1074)) = f * 2 ^ (E + 1074)).
        { unfold clamp. destruct (Z.ltb_spec (f * 2 ^ (E + 1074)) OVER) as [|Hov]; [reflexivity|].
          exfalso. rewrite OVER_eq in Hov.
          pose proof (pow2_le (E + 1074) 2045 ltac:(lia)). nia. }
        rewrite Hcl. repeat split.
        -- apply valid_finite. split; [|assumption].
           change (Z.pos (digits2_pos (Z.to_pos f))) with (Zdigits2 (Z.pos (Z.to_pos f))).
           rewrite Z2Pos.id by lia. unfold fexp64.
           pose proof (Zdigits2_spec f ltac:(lia)) as [Hl Hu].
           destruct (Z.le_gt_cases (Zdigits2 f) 53) as [Hd|Hd].
           ++ destruct (Z.eq_dec E (-1074)) as [->|HEn]; [lia|].
              specialize (Hn ltac:(lia)).
              assert (Zdigits2 f = 53) by (apply Zdigits2_unique; [lia|]; split; [exact Hn|exact Hlt]).
              lia.
           ++ exfalso. pose proof (pow2_le 53 (Zdigits2 f - 1) ltac:(lia)). lia.
        -- cbn [ord]. rewrite Z2Pos.id by lia. reflexivity.
      * assert (Hcl : clamp (f * 2 ^ (E + 1074)) = OVER).
        { unfold clamp. destruct (Z.ltb_spec (f * 2 ^ (E + 1074)) OVER) as [Hov|]; [|reflexivity].
          exfalso. specialize (Hn ltac:(lia)).
          assert (HO : OVER = 2 ^ 52 * 2 ^ 2046) by reflexivity. rewrite HO in Hov.
          pose proof (pow2_le 2046 (E + 1074) ltac:(lia)). nia. }
        rewrite Hcl. repeat split.
    + assert (f = 2 ^ 53) by lia. subst f.
      destruct (Z.leb_spec (E + 1) 971) as [HE9|HE9].
      * assert (Hsh : 2 ^ 53 * 2 ^ (E + 1074) = 2 ^ 52 * 2 ^ (E + 1 + 1074)).
        { replace (E + 1 + 1074) with (1 + (E + 1074)) by lia.
          rewrite (pow2_add 1 (E + 1074)) by lia. change (2 ^ 1) with 2. rewrite H52. ring. }
        assert (Hcl : clamp (2 ^ 53 * 2 ^ (E + 1074)) = 2 ^ 53 * 2 ^ (E + 1074)).
        { unfold clamp. destruct (Z.ltb_spec (2 ^ 53 * 2 ^ (E + 1074)) OVER) as [|Hov]; [reflexivity|].
          exfalso. rewrite OVER_eq in Hov.
          pose proof (pow2_lt (E + 1074) 2045 ltac:(lia)). nia. }
        rewrite Hcl. repeat split.
        -- apply valid_finite. split; [|assumption].
           change (Z.pos (digits2_pos (Z.to_pos (2 ^ 52)))) with 53. unfold fexp64. lia.
        -- cbn [ord]. rewrite Z2Pos.id by lia. now rewrite Hsh.
      * assert (Hcl : clamp (2 ^ 53 * 2 ^ (E + 1074)) = OVER).
        { unfold clamp. destruct (Z.ltb_spec (2 ^ 53 * 2 ^ (E + 1074)) OVER) as [Hov|]; [|reflexivity].
          exfalso. rewrite OVER_eq in Hov.
          pose proof (pow2_le 2045 (E + 1074) ltac:(lia)). nia. }
        rewrite Hcl. repeat split.
Qed.

Lemma mul_cancel_lt a b c : 0 < c -> a * c < b * c -> a < b.
Proof. intros. nia. Qed.

Lemma mul_cancel_le a b c : 0 < c -> a * c <= b * c -> a <= b.
Proof. intros. nia. Qed.

Lemma cross_lt n x d pa pb :
  0 <= n < x -> 0 < d -> 0 < pa <= pb -> n * d * pa < x * d * pb.
Proof.
  intros Hn Hd Hp. apply Z.le_lt_trans with (n * d * pb).
  - apply Z.mul_le_mono_nonneg_l; [apply Z.mul_nonneg_nonneg; lia | lia].
  - apply Z.mul_lt_mono_pos_r; [lia|]. apply Z.mul_lt_mono_pos_r; lia.
Qed.

Lemma scale_exp_zero N D : 0 <= N < D -> scale_exp N D = 0.
Proof.
  intros H. unfold scale_exp. rewrite Z.div_small by lia. reflexivity.
Qed.

Lemma scale_exp_binade N D j :
  0 < D -> 0 <= j -> 2 ^ j * D <= N < 2 ^ (j + 1) * D ->
  scale_exp N D = Z.max 0 (j - 52).
Proof.
  intros HD Hj [Hl Hu]. unfold scale_exp.
  rewrite (Z.log2_unique (N / D) j); [reflexivity|assumption|].
  split.
  - apply Z.div_le_lower_bound; lia.
  - replace (Z.succ j) with (j + 1) by lia. apply Z.div_lt_upper_bound; lia.
Qed.

Section Link.
Variables (m e : Z) (l : location) (Nn X N D a b : Z).
Hypotheses (Hm : 0 <= m) (HX : 0 < X) (HD : 0 < D) (HN : 0 <= N).
Hypothesis Hloc : located Nn X m l.
Hypothesis Hpre : e <= fexp64 (Zdigits2 m + e).
Hypotheses (Ha : 0 <= a) (Hb : 0 <= b) (Hab : a - b = e + 1074).
Hypothesis Hratio : Nn * D * 2 ^ a = N * X * 2 ^ b.

Let E := fexp64 (Zdigits2 m + e).

Lemma link_scale : scale_exp N D = E + 1074.
Proof.
  pose proof (located_bounds _ _ _ _ HX Hloc) as [Hlo Hhi].
  pose proof (pow2_gt0 a Ha) as Pa. pose proof (pow2_gt0 b Hb) as Pb.
  destruct (Z.eq_dec m 0) as [Hm0|Hm0].
  - subst m. cbn [Zdigits2] in *. unfold E, fexp64 in *.
    assert (Hab' : a <= b) by lia.
    pose proof (pow2_le a b ltac:(lia)) as Hp.
    rewrite scale_exp_zero; [lia|]. split; [assumption|].
    apply (mul_cancel_lt _ _ (X * 2 ^ b)); [apply Z.mul_pos_pos; lia|].
    replace (N * (X * 2 ^ b)) with (N * X * 2 ^ b) by ring. rewrite <- Hratio.
    replace (D * (X * 2 ^ b)) with (X * D * 2 ^ b) by ring.
    apply cross_lt; lia.
  - pose proof (Zdigits2_spec m ltac:(lia)) as [Hl Hu].
    pose proof (Zdigits2_pos m ltac:(lia)) as Hd.
    set (d := Zdigits2 m) in *.
    assert (HNlo : 2 ^ (d - 1) * X * D * 2 ^ a <= N * X * 2 ^ b).
    { rewrite <- Hratio. apply Z.mul_le_mono_nonneg_r; [lia|].
      apply Z.mul_le_mono_nonneg_r; [lia|]. nia. }
    assert (HNhi : N * X * 2 ^ b < 2 ^ d * X * D * 2 ^ a).
    { rewrite <- Hratio. apply Z.mul_lt_mono_pos_r; [lia|].
      apply Z.mul_lt_mono_pos_r; [lia|]. nia. }
    destruct (Z.le_gt_cases (d + (e + 1074)) 0) as [Hs|Hs].
    + assert (Hp : 2 ^ d * 2 ^ a <= 2 ^ b).
      { rewrite <- pow2_add by lia. apply pow2_le. lia. }
      rewrite scale_exp_zero; [unfold E, fexp64; fold d; lia|].
      split; [assumption|]. apply (mul_cancel_lt _ _ (X * 2 ^ b)); [apply Z.mul_pos_pos; lia|].
      replace (N * (X * 2 ^ b)) with (N * X * 2 ^ b) by ring.
      eapply Z.lt_le_trans; [exact HNhi|].
      replace (2 ^ d * X * D * 2 ^ a) with (X * D * (2 ^ d * 2 ^ a)) by ring.
      replace (D * (X * 2 ^ b)) with (X * D * 2 ^ b) by ring.
      apply Z.mul_le_mono_nonneg_l; [apply Z.mul_nonneg_nonneg; lia | exact Hp].
    + set (j := d + (e + 1074) - 1).
      assert (Hj1 : 2 ^ (d - 1) * 2 ^ a = 2 ^ j * 2 ^ b).
      { rewrite <- !pow2_add by (unfold j; lia). f_equal. unfold j. lia. }
      assert (Hj2 : 2 ^ d * 2 ^ a = 2 ^ (j + 1) * 2 ^ b).
      { rewrite <- !pow2_add by (unfold j; lia). f_equal. unfold j. lia. }
      rewrite (scale_exp_binade N D j HD ltac:(unfold j; lia)).
      * unfold E, fexp64. fold d. unfold j. lia.
      * split.
        -- apply (mul_cancel_le _ _ (X * 2 ^ b)); [apply Z.mul_pos_pos; lia|].
           replace (2 ^ j * D * (X * 2 ^ b)) with (2 ^ j * 2 ^ b * X * D) by ring.
           rewrite <- Hj1.
           replace (N * (X * 2 ^ b)) with (N * X * 2 ^ b) by ring.
           replace (2 ^ (d - 1) * 2 ^ a * X * D) with (2 ^ (d - 1) * X * D * 2 ^ a) by ring.
           exact HNlo.
        -- apply (mul_cancel_lt _ _ (X * 2 ^ b)); [apply Z.mul_pos_pos; lia|].
           replace (2 ^ (j + 1) * D * (X * 2 ^ b)) with (2 ^ (j + 1) * 2 ^ b * X * D) by ring.
           rewrite <- Hj2.
           replace (N * (X * 2 ^ b)) with (N * X * 2 ^ b) by ring.
           replace (2 ^ d * 2 ^ a * X * D) with (2 ^ d * X * D * 2 ^ a) by ring.
           exact HNhi.
Qed.

Lemma link_raw :
  round_raw N D = rne_div Nn (X * 2 ^ (E - e)) * 2 ^ (E + 1074).
Proof.
  unfold round_raw. rewrite link_scale.
  assert (HE : -1074 <= E) by (unfold E, fexp64; lia).
  pose proof (pow2_gt0 a Ha) as Pa. pose proof (pow2_gt0 b Hb) as Pb.
  pose proof (pow2_gt0 (E + 1074) ltac:(lia)) as Pk.
  pose proof (pow2_gt0 (E - e) ltac:(fold E in Hpre; lia)) as Pe.
  rewrite (rne_div_ratio N (D * 2 ^ (E + 1074)) Nn (X * 2 ^ (E - e))); [ring|nia|nia|].
  apply (Z.mul_cancel_r _ _ (2 ^ b)); [lia|].
  assert (Hk : 2 ^ (E + 1074) * 2 ^ b = 2 ^ (E - e) * 2 ^ a).
  { rewrite <- !pow2_add by (fold E in Hpre; lia). f_equal. lia. }
  replace (N * (X * 2 ^ (E - e)) * 2 ^ b) with (N * X * 2 ^ b * 2 ^ (E - e)) by ring.
  rewrite <- Hratio.
  replace (Nn * (D * 2 ^ (E + 1074)) * 2 ^ b) with (Nn * D * (2 ^ (E + 1074) * 2 ^ b)) by ring.
  rewrite Hk. ring.
Qed.

Lemma round_correct s :
  ordinary (binary_round_aux 53 1024 s m e l) /\
  sign_bit (binary_round_aux 53 1024 s m e l) = s /\
  ord (binary_round_aux 53 1024 s m e l) = cond_Zopp s (round_ulps N D).
Proof.
  destruct (binary_round_aux_correct s m e l Nn X Hm HX Hloc Hpre) as (Heq & Hf & Hn).
  fold E in Heq, Hf, Hn. rewrite Heq.
  assert (HE : -1074 <= E) by (unfold E, fexp64; lia).
  destruct (assemble_facts s _ E Hf HE Hn) as (Ho & Hs & Hord).
  repeat split; try apply Ho; try exact Hs.
  rewrite Hord. unfold round_ulps. now rewrite link_raw.
Qed.

End Link.

Lemma mag_pos m e : -1074 <= e -> 0 < mag m e.
Proof. intros. unfold mag. pose proof (pow2_gt0 (e + 1074) ltac:(lia)). nia. Qed.

Lemma Zdigits2_ge m j : 0 <= j -> 2 ^ j <= m -> j + 1 <= Zdigits2 m.
Proof.
  intros Hj Hm. assert (0 < m) by (pose proof (pow2_gt0 j Hj); lia).
  pose proof (Zdigits2_spec m H) as [_ Hu]. pose proof (Zdigits2_pos m H).
  destruct (Z.le_gt_cases (j + 1) (Zdigits2 m)); [assumption|exfalso].
  pose proof (pow2_le (Zdigits2 m) j ltac:(lia)). lia.
Qed.

Lemma fexp64_mono a b : a <= b -> fexp64 a <= fexp64 b.
Proof. unfold fexp64. lia. Qed.

Lemma mul_finite sx mx ex sy my ey :
  valid_binary 53 1024 (S754_finite sx mx ex) = true ->
  valid_binary 53 1024 (S754_finite sy my ey) = true ->
  let r := SFmul 53 1024 (S754_finite sx mx ex) (S754_finite sy my ey) in
  ordinary r /\ sign_bit r = xorb sx sy /\
  ord r = cond_Zopp (xorb sx sy) (round_ulps (mag mx ex * mag my ey) W).
Proof.
  intros Hx Hy r.
  pose proof (valid_finite_bounds _ _ _ Hx) as (Hex & Hmx & Hnx & Hdx & Hdx').
  pose proof (valid_finite_bounds _ _ _ Hy) as (Hey & Hmy & Hny & Hdy & Hdy').
  pose proof (digits2_pos_spec mx) as [Hlx _].
  pose proof (digits2_pos_spec my) as [Hly _].
  assert (Hdig : Zpos (digits2_pos mx) + Zpos (digits2_pos my) - 1
                 <= Zdigits2 (Zpos (mx * my))).
  { replace (Zpos (digits2_pos mx) + Zpos (digits2_pos my) - 1)
      with ((Zpos (digits2_pos mx) - 1 + (Zpos (digits2_pos my) - 1)) + 1) by lia.
    apply Zdigits2_ge; [lia|]. rewrite pow2_add by lia. rewrite Pos2Z.inj_mul.
    apply Z.mul_le_mono_nonneg; try lia; apply Z.lt_le_incl, pow2_gt0; lia. }
  unfold r. cbn [SFmul].
  apply (round_correct (Zpos (mx * my)) (ex + ey) loc_Exact (Zpos mx * Zpos my) 1
           (mag mx ex * mag my ey) W (ex + ey + 2148) 1074).
  - lia.
  - lia.
  - reflexivity.
  - pose proof (mag_pos mx ex ltac:(lia)). pose proof (mag_pos my ey ltac:(lia)). nia.
  - cbn [located]. rewrite Pos2Z.inj_mul. ring.
  - unfold fexp64. lia.
  - lia.
  - lia.
  - lia.
  - unfold mag, W.
    replace (ex + ey + 2148) with ((ex + 1074) + (ey + 1074)) by lia.
    rewrite pow2_add by lia. ring.
Qed.

(** *** Division *)

Lemma new_location_located m' m2 q r :
  0 < m2 -> 0 <= r < m2 -> m' = m2 * q + r ->
  located m' m2 q (new_location m2 r).
Proof.
  intros Hm2 Hr Hm'. unfold new_location.
  assert (Hcmp : forall c, (2 * r ?= m2) = c -> (2 * m' ?= (2 * q + 1) * m2) = c).
  { intros c <-. destruct (Z.compare_spec (2 * r) m2);
      [apply Z.compare_eq_iff | apply Z.compare_lt_iff | apply Z.compare_gt_iff]; lia. }
  destruct (Z.even m2) eqn:Hev.
  - unfold new_location_even. destruct (Z.eqb_spec r 0) as [->|Hr0]; cbn [located].
    + lia.
    + split; [lia|]. now apply Hcmp.
  - unfold new_location_odd. destruct (Z.eqb_spec r 0) as [->|Hr0]; cbn [located].
    + lia.
    + split; [lia|]. apply Hcmp.
      assert (Hodd : Z.odd m2 = true) by (rewrite <- Z.negb_even, Hev; reflexivity).
      apply Z.odd_spec in Hodd as [t Ht].
      destruct (Z.compare_spec (2 * r + 1) m2);
        [apply Z.compare_lt_iff | apply Z.compare_lt_iff | apply Z.compare_gt_iff]; lia.
Qed.

Lemma quotient_nonneg m d q r : m = d * q + r -> 0 <= r < d -> 0 <= m -> 0 <= q.
Proof. intros. nia. Qed.

Lemma quotient_ge m d q r p :
  m = d * q + r -> 0 <= r < d -> 0 <= p -> p * d <= m -> p <= q.
Proof. intros. nia. Qed.

Lemma div_core_facts mx ex my ey :
  valid_binary 53 1024 (S754_finite false mx ex) = true ->
  valid_binary 53 1024 (S754_finite false my ey) = true ->
  exists q e' l s,
    SFdiv_core_binary 53 1024 (Zpos mx) ex (Zpos my) ey = (q, e', l) /\
    0 <= s /\ s = ex - ey - e' /\ -2045 <= e' /\
    0 <= q /\ located (Zpos mx * 2 ^ s) (Zpos my) q l /\
    e' <= fexp64 (Zdigits2 q + e').
Proof.
  intros Hx Hy.
  pose proof (valid_finite_bounds _ _ _ Hx) as (Hex & Hmx & Hnx & Hdx & Hdx').
  pose proof (valid_finite_bounds _ _ _ Hy) as (Hey & Hmy & Hny & Hdy & Hdy').
  pose proof (digits2_pos_spec mx) as [Hlx Hux].
  pose proof (digits2_pos_spec my) as [Hly Huy].
  unfold SFdiv_core_binary. rewrite fexp_64. cbn [Zdigits2].
  set (d1 := Zpos (digits2_pos mx)) in *. set (d2 := Zpos (digits2_pos my)) in *.
  set (e' := Z.min (fexp64 (d1 + ex - (d2 + ey))) (ex - ey)).
  set (s := ex - ey - e').
  assert (Hs : 0 <= s) by (unfold s, e'; lia).
  assert (He' : -2045 <= e') by (unfold e', fexp64; lia).
  set (m' := match s with Z.pos _ => Z.shiftl (Zpos mx) s | 0 => Zpos mx | Z.neg _ => 0 end).
  assert (Hm' : m' = Zpos mx * 2 ^ s).
  { unfold m'. destruct s as [|p|p] eqn:Es; [cbn; lia | | lia].
    now rewrite Z.shiftl_mul_pow2 by lia. }
  pose proof (Z.div_eucl_eq m' (Zpos my) ltac:(lia)) as Heq.
  pose proof (Z.mod_pos_bound m' (Zpos my) ltac:(lia)) as Hr.
  unfold Z.modulo in Hr.
  destruct (Z.div_eucl m' (Zpos my)) as [q r] eqn:Hdiv.
  exists q, e', (new_location (Zpos my) r), s.
  assert (Hm'pos : 0 < m') by (rewrite Hm'; pose proof (pow2_gt0 s Hs); nia).
  assert (Hq : 0 <= q) by (apply (quotient_nonneg m' (Zpos my) q r); lia).
  repeat split; try assumption; try reflexivity.
  - rewrite <- Hm'. apply new_location_located; [lia|assumption|assumption].
  - destruct (Z.le_gt_cases e' (-1074)) as [Hle|Hgt]; [unfold fexp64; lia|].
    assert (HF : e' <= d1 + ex - (d2 + ey) - 53) by (unfold e', fexp64 in *; lia).
    assert (Hj : 52 <= d1 - 1 + s - d2) by (unfold s; lia).
    assert (Hq2 : 2 ^ (d1 - 1 + s - d2) <= q).
    { assert (Hlow : 2 ^ (d1 - 1 + s - d2) * 2 ^ d2 <= m').
      { rewrite <- pow2_add by lia. replace (d1 - 1 + s - d2 + d2) with ((d1 - 1) + s) by lia.
        rewrite pow2_add by lia. rewrite Hm'.
        apply Z.mul_le_mono_nonneg_r; [apply Z.lt_le_incl, pow2_gt0; lia | lia]. }
      pose proof (pow2_gt0 (d1 - 1 + s - d2) ltac:(lia)).
      apply (quotient_ge m' (Zpos my) q r); try lia.
      eapply Z.le_trans; [|exact Hlow].
      apply Z.mul_le_mono_nonneg_l; lia. }
    pose proof (Zdigits2_ge q (d1 - 1 + s - d2) ltac:(lia) Hq2). unfold fexp64. lia.
Qed.

Lemma div_finite sx mx ex sy my ey :
  valid_binary 53 1024 (S754_finite sx mx ex) = true ->
  valid_binary 53 1024 (S754_finite sy my ey) = true ->
  let r := SFdiv 53 1024 (S754_finite sx mx ex) (S754_finite sy my ey) in
  ordinary r /\ sign_bit r = xorb sx sy /\
  ord r = cond_Zopp (xorb sx sy) (round_ulps (mag mx ex * W) (mag my ey)).
Proof.
  intros Hx Hy r.
  pose proof (valid_finite_bounds _ _ _ Hx) as (Hex & _).
  pose proof (valid_finite_bounds _ _ _ Hy) as (Hey & _).
  destruct (div_core_facts mx ex my ey Hx Hy) as (q & e' & l & s & Hcore & Hs & Hse & He' & Hq & Hloc & Hpre).
  unfold r. cbn [SFdiv]. rewrite Hcore.
  apply (round_correct q e' l (Zpos mx * 2 ^ s) (Zpos my)
           (mag mx ex * W) (mag my ey) (e' + 2045) 971); try assumption; try lia.
  - apply mag_pos; lia.
  - pose proof (mag_pos mx ex ltac:(lia)). unfold W. nia.
  - unfold mag, W.
    assert (Hp : 2 ^ s * 2 ^ (ey + 1074) * 2 ^ (e' + 2045)
                 = 2 ^ (ex + 1074) * 2 ^ 1074 * 2 ^ 971).
    { rewrite <- !pow2_add by lia. f_equal. lia. }
    replace (Z.pos mx * 2 ^ s * (Z.pos my * 2 ^ (ey + 1074)) * 2 ^ (e' + 2045))
      with (Z.pos mx * Z.pos my * (2 ^ s * 2 ^ (ey + 1074) * 2 ^ (e' + 2045))) by ring.
    rewrite Hp. ring.
Qed.

Lemma iter_xO m d : Zpos (Pos.iter xO m d) = Zpos m * 2 ^ Zpos d.
Proof.
  induction d as [|d IH] using Pos.peano_ind.
  - cbn [Pos.iter]. change (2 ^ 1) with 2. lia.
  - rewrite Pos.iter_succ, Pos2Z.inj_xO, IH, Pos2Z.inj_succ.
    replace (Z.succ (Zpos d)) with (1 + Zpos d) by lia.
    rewrite pow2_add by lia. change (2 ^ 1) with 2. ring.
Qed.

Lemma Zdigits2_shift m d : 0 < m -> 0 <= d -> Zdigits2 (m * 2 ^ d) = Zdigits2 m + d.
Proof.
  intros Hm Hd. pose proof (Zdigits2_spec m Hm) as [Hl Hu].
  pose proof (Zdigits2_pos m Hm). pose proof (pow2_gt0 d Hd).
  apply Zdigits2_unique; [lia|]. split.
  - replace (Zdigits2 m + d - 1) with ((Zdigits2 m - 1) + d) by lia.
    rewrite pow2_add by lia. nia.
  - rewrite pow2_add by lia. nia.
Qed.

(** [shl_align] keeps the value and never raises the exponent. *)
Lemma shl_align_spec mx ex ex' :
  let '(mz, ez) := shl_align mx ex ex' in
  ez <= ex /\ ez <= Z.max ex' ex /\ (ex' <= ex -> ez = ex') /\ (ex <= ex' -> ez = ex) /\
  Zpos mz = Zpos mx * 2 ^ (ex - ez).
Proof.
  unfold shl_align. destruct (ex' - ex) as [|p|p] eqn:Hd.
  - repeat split; try lia. rewrite Z.sub_diag. cbn. lia.
  - repeat split; try lia. rewrite Z.sub_diag. cbn. lia.
  - repeat split; try lia. rewrite iter_xO. f_equal. f_equal. lia.
Qed.

Lemma binary_round_correct s mx ex :
  -1074 <= ex ->
  let r := binary_round 53 1024 s mx ex in
  ordinary r /\ sign_bit r = s /\
  ord r = cond_Zopp s (round_ulps (mag mx ex) 1).
Proof.
  intros Hex r. unfold r, binary_round. rewrite fexp_64.
  pose proof (shl_align_spec mx ex (fexp64 (Zpos (digits2_pos mx) + ex))) as Hsh.
  destruct (shl_align mx ex (fexp64 (Zpos (digits2_pos mx) + ex))) as [mz ez].
  destruct Hsh as (H1 & H2 & H3 & H4 & Hmz).
  assert (Hez : -1074 <= ez).
  { destruct (Z.le_gt_cases (fexp64 (Zpos (digits2_pos mx) + ex)) ex) as [Hc|Hc].
    - rewrite (H3 Hc). unfold fexp64. lia.
    - rewrite (H4 ltac:(lia)). lia. }
  apply (round_correct (Zpos mz) ez loc_Exact (Zpos mz) 1 (mag mx ex) 1 (ez + 1074) 0);
    try lia.
  - pose proof (mag_pos mx ex Hex). lia.
  - cbn [located]. lia.
  - assert (Hdz : Zdigits2 (Zpos mz) = Zpos (digits2_pos mx) + (ex - ez)).
    { rewrite Hmz. rewrite Zdigits2_shift by lia. reflexivity. }
    rewrite Hdz.
    destruct (Z.le_gt_cases (fexp64 (Zpos (digits2_pos mx) + ex)) ex) as [Hc|Hc].
    + rewrite (H3 Hc) at 1.
      replace (Zpos (digits2_pos mx) + (ex - ez) + ez) with (Zpos (digits2_pos mx) + ex) by lia.
      lia.
    + rewrite (H4 ltac:(lia)).
      replace (Zpos (digits2_pos mx) + (ex - ex) + ex) with (Zpos (digits2_pos mx) + ex) by lia.
      lia.
  - unfold mag. rewrite Hmz. change (2 ^ 0) with 1.
    replace (ex + 1074) with ((ex - ez) + (ez + 1074)) by lia.
    rewrite (pow2_add (ex - ez) (ez + 1074)) by lia. ring.
Qed.

Lemma round_ulps_nonneg N D : 0 <= N -> 0 < D -> 0 <= round_ulps N D.
Proof.
  intros. unfold round_ulps, clamp. pose proof (round_raw_nonneg N D H H0).
  destruct (Z.ltb_spec (round_raw N D) OVER); [lia | unfold OVER; apply Z.lt_le_incl, pow2_gt0; lia].
Qed.

Lemma round_ulps_le_OVER N D : round_ulps N D <= OVER.
Proof.
  unfold round_ulps, clamp. destruct (Z.ltb_spec (round_raw N D) OVER); lia.
Qed.

Lemma round_signed_le z1 z2 : z1 <= z2 -> round_signed z1 <= round_signed z2.
Proof.
  intros H. unfold round_signed.
  pose proof (round_ulps_nonneg (Z.abs z1) 1 ltac:(lia) ltac:(lia)).
  pose proof (round_ulps_nonneg (Z.abs z2) 1 ltac:(lia) ltac:(lia)).
  destruct (Z.sgn_spec z1) as [[? ->]|[[? ->]|[? ->]]];
  destruct (Z.sgn_spec z2) as [[? ->]|[[? ->]|[? ->]]]; try lia.
  - pose proof (round_ulps_le (Z.abs z1) 1 (Z.abs z2) 1 ltac:(lia) ltac:(lia) ltac:(lia) ltac:(lia) ltac:(lia)).
    lia.
  - pose proof (round_ulps_le (Z.abs z2) 1 (Z.abs z1) 1 ltac:(lia) ltac:(lia) ltac:(lia) ltac:(lia) ltac:(lia)).
    lia.
Qed.

Lemma binary_normalize_correct z ez :
  -1074 <= ez ->
  let r := binary_normalize 53 1024 z ez false in
  ordinary r /\ ord r = round_signed (z * 2 ^ (ez + 1074)) /\
  (z <> 0 -> sign_bit r = (z <? 0)).
Proof.
  intros Hez r. pose proof (pow2_gt0 (ez + 1074) ltac:(lia)) as Hp.
  unfold r, binary_normalize, round_signed. destruct z as [|p|p].
  - repeat split.
  - destruct (binary_round_correct false p ez Hez) as (Ho & Hs & Hord).
    repeat split; try apply Ho.
    + rewrite Hord. cbn [cond_Zopp]. unfold mag.
      rewrite Z.sgn_pos by nia. rewrite Z.abs_eq by nia. lia.
    + intros _. exact Hs.
  - destruct (binary_round_correct true p ez Hez) as (Ho & Hs & Hord).
    repeat split; try apply Ho.
    + rewrite Hord. cbn [cond_Zopp]. unfold mag.
      rewrite Z.sgn_neg by nia. rewrite Z.abs_neq by nia.
      replace (- (Z.neg p * 2 ^ (ez + 1074))) with (Z.pos p * 2 ^ (ez + 1074)) by lia. lia.
    + intros _. exact Hs.
Qed.

Lemma round_ulps_exact z D :
  representable z -> z < OVER -> 0 < D -> round_ulps (z * D) D = z.
Proof.
  intros Hr Hz HD. unfold round_ulps, clamp. rewrite round_raw_exact by assumption.
  destruct (Z.ltb_spec z OVER); lia.
Qed.

Lemma of_Z_exact n :
  Z.abs n < 2 ^ 53 ->
  ordinary (binary_normalize 53 1024 n 0 false) /\
  ord (binary_normalize 53 1024 n 0 false) = n * W /\
  (n <> 0 -> sign_bit (binary_normalize 53 1024 n 0 false) = (n <? 0)).
Proof.
  intros Hn. destruct (binary_normalize_correct n 0 ltac:(lia)) as (Ho & Hord & Hs).
  repeat split; try apply Ho; try assumption.
  rewrite Hord. change (2 ^ (0 + 1074)) with W. unfold round_signed.
  assert (HW : 0 < W) by reflexivity.
  rewrite Z.abs_mul, (Z.abs_eq W) by lia.
  replace (Z.abs n * W) with (Z.abs n * W * 1) by ring.
  rewrite round_ulps_exact.
  - rewrite Z.sgn_mul, (Z.sgn_pos W) by lia. pose proof (Z.abs_sgn n). lia.
  - exists (Z.abs n), 1074. repeat split; try lia.
  - assert (HO : OVER = 2 ^ 53 * 2 ^ 2045) by reflexivity.
    assert (W < 2 ^ 2045) by reflexivity. nia.
  - lia.
Qed.

Lemma OVER_pos : 0 < OVER.
Proof. reflexivity. Qed.

Lemma W_pos : 0 < W.
Proof. reflexivity. Qed.

Lemma mag_bounds s m e :
  valid_binary 53 1024 (S754_finite s m e) = true ->
  0 < mag m e < OVER /\ representable (mag m e).
Proof.
  intros H. pose proof (valid_finite_bounds _ _ _ H) as (He & Hm & _).
  pose proof (mag_pos m e ltac:(lia)) as Hp. split; [split; [assumption|]|].
  - unfold mag. rewrite OVER_eq.
    pose proof (pow2_le (e + 1074) 2045 ltac:(lia)).
    pose proof (pow2_gt0 (e + 1074) ltac:(lia)). nia.
  - exists (Zpos m), (e + 1074). repeat split; lia.
Qed.

Lemma ord_bounds x : ordinary x -> - OVER <= ord x <= OVER.
Proof.
  intros [Hv Hn]. pose proof OVER_pos. destruct x as [s|s| |s m e]; cbn [ord]; try lia.
  - destruct s; cbn [cond_Zopp]; lia.
  - pose proof (mag_bounds s m e Hv) as [Hb _]. fold (mag m e). destruct s; cbn [cond_Zopp]; lia.
Qed.

Lemma mag_lt_exp m1 e1 m2 e2 :
  valid_binary 53 1024 (S754_finite false m1 e1) = true ->
  valid_binary 53 1024 (S754_finite false m2 e2) = true ->
  e1 < e2 -> mag m1 e1 < mag m2 e2.
Proof.
  intros H1 H2 He.
  pose proof (valid_finite_bounds _ _ _ H1) as (He1 & Hm1 & _).
  pose proof (valid_finite_bounds _ _ _ H2) as (He2 & _ & Hn2 & _).
  specialize (Hn2 ltac:(lia)). unfold mag.
  pose proof (pow2_gt0 (e1 + 1074) ltac:(lia)) as P1.
  pose proof (pow2_le (e1 + 1 + 1074) (e2 + 1074) ltac:(lia)) as P2.
  replace (e1 + 1 + 1074) with (1 + (e1 + 1074)) in P2 by lia.
  rewrite (pow2_add 1 (e1 + 1074)) in P2 by lia. change (2 ^ 1) with 2 in P2.
  assert (H53 : 2 ^ 53 = 2 * 2 ^ 52) by reflexivity.
  apply Z.lt_le_trans with (2 ^ 52 * (2 * 2 ^ (e1 + 1074))); [nia|].
  apply Z.mul_le_mono_nonneg; lia.
Qed.

Lemma mag_compare m1 e1 m2 e2 :
  valid_binary 53 1024 (S754_finite false m1 e1) = true ->
  valid_binary 53 1024 (S754_finite false m2 e2) = true ->
  (mag m1 e1 ?= mag m2 e2) =
  match e1 ?= e2 with
  | Lt => Lt
  | Gt => Gt
  | Eq => Pos.compare_cont Eq m1 m2
  end.
Proof.
  intros H1 H2. destruct (Z.compare_spec e1 e2) as [->|Hlt|Hgt].
  - pose proof (valid_finite_bounds _ _ _ H2) as (He2 & _).
    unfold mag.
    rewrite <- Zmult_compare_compat_r by (apply Z.lt_gt, pow2_gt0; lia). reflexivity.
  - apply Z.compare_lt_iff. now apply mag_lt_exp.
  - apply Z.compare_gt_iff. now apply mag_lt_exp.
Qed.

Lemma SFcompare_ord x y :
  ordinary x -> ordinary y -> SFcompare x y = Some (ord x ?= ord y).
Proof.
  intros [Hx Nx] [Hy Ny]. pose proof OVER_pos as HO.
  destruct x as [sx|sx| |sx mx ex]; try discriminate Nx;
  destruct y as [sy|sy| |sy my ey]; try discriminate Ny; cbn [SFcompare ord].
  - reflexivity.
  - f_equal. destruct sy; cbn [cond_Zopp]; symmetry;
      [apply Z.compare_gt_iff | apply Z.compare_lt_iff]; lia.
  - pose proof (mag_bounds sy my ey Hy) as [Hb _]. fold (mag my ey).
    f_equal. destruct sy; cbn [cond_Zopp]; symmetry;
      [apply Z.compare_gt_iff | apply Z.compare_lt_iff]; lia.
  - f_equal. destruct sx; cbn [cond_Zopp]; symmetry;
      [apply Z.compare_lt_iff | apply Z.compare_gt_iff]; lia.
  - f_equal. destruct sx, sy; cbn [cond_Zopp]; symmetry;
      first [apply Z.compare_eq_iff | apply Z.compare_lt_iff | apply Z.compare_gt_iff]; lia.
  - pose proof (mag_bounds sy my ey Hy) as [Hb _]. fold (mag my ey).
    f_equal. destruct sx, sy; cbn [cond_Zopp]; symmetry;
      first [apply Z.compare_lt_iff; lia | apply Z.compare_gt_iff; lia].
  - pose proof (mag_bounds sx mx ex Hx) as [Hb _]. fold (mag mx ex).
    f_equal. destruct sx; cbn [cond_Zopp]; symmetry;
      [apply Z.compare_lt_iff | apply Z.compare_gt_iff]; lia.
  - pose proof (mag_bounds sx mx ex Hx) as [Hb _]. fold (mag mx ex).
    f_equal. destruct sx, sy; cbn [cond_Zopp]; symmetry;
      first [apply Z.compare_lt_iff; lia | apply Z.compare_gt_iff; lia].
  - pose proof (mag_bounds sx mx ex Hx) as [Hbx _].
    pose proof (mag_bounds sy my ey Hy) as [Hby _].
    fold (mag mx ex) (mag my ey). f_equal.
    destruct sx, sy; cbn [cond_Zopp].
    + rewrite Z.compare_opp, (Z.compare_antisym (mag mx ex) (mag my ey)).
      rewrite (mag_compare mx ex my ey Hx Hy).
      destruct (ex ?= ey); reflexivity.
    + symmetry. apply Z.compare_lt_iff. lia.
    + symmetry. apply Z.compare_gt_iff. lia.
    + now rewrite (mag_compare mx ex my ey Hx Hy).
Qed.

Lemma SFleb_ord x y :
  ordinary x -> ordinary y -> SFleb x y = (ord x <=? ord y).
Proof.
  intros Hx Hy. unfold SFleb. rewrite (SFcompare_ord x y Hx Hy).
  unfold Z.leb. destruct (ord x ?= ord y); reflexivity.
Qed.

Lemma SFltb_ord x y :
  ordinary x -> ordinary y -> SFltb x y = (ord x <? ord y).
Proof.
  intros Hx Hy. unfold SFltb. rewrite (SFcompare_ord x y Hx Hy).
  unfold Z.ltb. destruct (ord x ?= ord y); reflexivity.
Qed.

(** *** Addition and subtraction of finite data *)

Lemma shl_align_fst mx ex ez :
  ez <= ex -> Zpos (fst (shl_align mx ex ez)) = Zpos mx * 2 ^ (ex - ez).
Proof.
  intros H. pose proof (shl_align_spec mx ex ez) as Hs.
  destruct (shl_align mx ex ez) as [mz ez']. cbn [fst].
  destruct Hs as (_ & _ & H3 & _ & Hmz). rewrite Hmz, (H3 H). reflexivity.
Qed.

Lemma aligned_mag s m e ez :
  -1074 <= ez <= e ->
  cond_Zopp s (Zpos (fst (shl_align m e ez))) * 2 ^ (ez + 1074) = cond_Zopp s (mag m e).
Proof.
  intros H. rewrite shl_align_fst by lia. unfold mag.
  replace (e + 1074) with ((e - ez) + (ez + 1074)) by lia.
  rewrite (pow2_add (e - ez) (ez + 1074)) by lia.
  destruct s; cbn [cond_Zopp]; ring.
Qed.

Lemma add_finite sx mx ex sy my ey :
  valid_binary 53 1024 (S754_finite sx mx ex) = true ->
  valid_binary 53 1024 (S754_finite sy my ey) = true ->
  let r := SFadd 53 1024 (S754_finite sx mx ex) (S754_finite sy my ey) in
  ordinary r /\
  ord r = round_signed (ord (S754_finite sx mx ex) + ord (S754_finite sy my ey)).
Proof.
  intros Hx Hy r.
  pose proof (valid_finite_bounds _ _ _ Hx) as (Hex & _).
  pose proof (valid_finite_bounds _ _ _ Hy) as (Hey & _).
  unfold r. cbn [SFadd ord]. fold (mag mx ex) (mag my ey).
  destruct (binary_normalize_correct
              (cond_Zopp sx (Zpos (fst (shl_align mx ex (Z.min ex ey)))) +
               cond_Zopp sy (Zpos (fst (shl_align my ey (Z.min ex ey)))))
              (Z.min ex ey) ltac:(lia)) as (Ho & Hord & _).
  split; [exact Ho|]. rewrite Hord. f_equal.
  rewrite Z.mul_add_distr_r, !aligned_mag by lia. reflexivity.
Qed.

Lemma sub_finite sx mx ex sy my ey :
  valid_binary 53 1024 (S754_finite sx mx ex) = true ->
  valid_binary 53 1024 (S754_finite sy my ey) = true ->
  let r := SFsub 53 1024 (S754_finite sx mx ex) (S754_finite sy my ey) in
  ordinary r /\
  ord r = round_signed (ord (S754_finite sx mx ex) - ord (S754_finite sy my ey)).
Proof.
  intros Hx Hy r.
  pose proof (valid_finite_bounds _ _ _ Hx) as (Hex & _).
  pose proof (valid_finite_bounds _ _ _ Hy) as (Hey & _).
  unfold r. cbn [SFsub ord]. fold (mag mx ex) (mag my ey).
  destruct (binary_normalize_correct
              (cond_Zopp sx (Zpos (fst (shl_align mx ex (Z.min ex ey)))) -
               cond_Zopp sy (Zpos (fst (shl_align my ey (Z.min ex ey)))))
              (Z.min ex ey) ltac:(lia)) as (Ho & Hord & _).
  split; [exact Ho|]. rewrite Hord. f_equal.
  rewrite Z.mul_sub_distr_r, !aligned_mag by lia. reflexivity.
Qed.

End Binary64Facts.

(** ** The arithmetic of the module on the number line *)

Module Arithmetic.
Import Binary64 Binary64Facts.

(** *** Operations with a positive operand *)

Lemma ordinary_finite_ord x :
  ordinary x -> JS.is_finite x = true -> Z.abs (ord x) < OVER.
Proof.
  intros [Hv Hn] Hf. pose proof OVER_pos.
  destruct x as [s|s| |s m e]; try discriminate; cbn [ord].
  - cbn. lia.
  - pose proof (mag_bounds s m e Hv) as [Hb _]. fold (mag m e).
    destruct s; cbn [cond_Zopp]; lia.
Qed.

Lemma odd_ext_le R o1 o2 :
  (forall a b, 0 <= a <= b -> R a <= R b) -> (forall a, 0 <= a -> 0 <= R a) ->
  o1 <= o2 -> odd_ext R o1 <= odd_ext R o2.
Proof.
  intros Hmono Hpos H. unfold odd_ext.
  pose proof (Hpos (Z.abs o1) ltac:(lia)). pose proof (Hpos (Z.abs o2) ltac:(lia)).
  destruct (Z.sgn_spec o1) as [[? ->]|[[? ->]|[? ->]]];
  destruct (Z.sgn_spec o2) as [[? ->]|[[? ->]|[? ->]]]; try lia.
  - pose proof (Hmono (Z.abs o1) (Z.abs o2) ltac:(lia)). lia.
  - pose proof (Hmono (Z.abs o2) (Z.abs o1) ltac:(lia)). lia.
Qed.

Lemma odd_ext_cond_Zopp R s n : 0 < n -> odd_ext R (cond_Zopp s n) = cond_Zopp s (R n).
Proof.
  intros Hn. unfold odd_ext. destruct s; cbn [cond_Zopp].
  - rewrite Z.sgn_neg, Z.abs_neq by lia. replace (- - n) with n by lia. lia.
  - rewrite Z.sgn_pos, Z.abs_eq by lia. lia.
Qed.

Lemma xorb_false_r' s : xorb s false = s.
Proof. now destruct s. Qed.

(** Multiplication and division by a positive finite double. *)
Section PositiveOperand.
Variables (my : positive) (ey : Z).
Hypothesis Hy : valid_binary 53 1024 (S754_finite false my ey) = true.
Let y := S754_finite false my ey.

Lemma mul_pos_finite x :
  ordinary x -> JS.is_finite x = true ->
  ordinary (SFmul 53 1024 x y) /\ sign_bit (SFmul 53 1024 x y) = sign_bit x /\
  ord (SFmul 53 1024 x y) = odd_ext (fun n => round_ulps (n * mag my ey) W) (ord x).
Proof.
  intros [Hv Hn] Hf. unfold y. destruct x as [s|s| |s m e]; try discriminate.
  - cbn [SFmul ord sign_bit]. rewrite xorb_false_r'. repeat split.
  - destruct (mul_finite s m e false my ey Hv Hy) as (Ho & Hs & Hord).
    pose proof (mag_bounds s m e Hv) as [Hb _].
    split; [exact Ho|]. split; [now rewrite Hs, xorb_false_r'|].
    rewrite Hord, xorb_false_r'. cbn [ord]. fold (mag m e).
    now rewrite odd_ext_cond_Zopp by lia.
Qed.

Lemma div_pos_finite x :
  ordinary x -> JS.is_finite x = true ->
  ordinary (SFdiv 53 1024 x y) /\ sign_bit (SFdiv 53 1024 x y) = sign_bit x /\
  ord (SFdiv 53 1024 x y) = odd_ext (fun n => round_ulps (n * W) (mag my ey)) (ord x).
Proof.
  intros [Hv Hn] Hf. unfold y. destruct x as [s|s| |s m e]; try discriminate.
  - cbn [SFdiv ord sign_bit]. rewrite xorb_false_r'. repeat split.
  - destruct (div_finite s m e false my ey Hv Hy) as (Ho & Hs & Hord).
    pose proof (mag_bounds s m e Hv) as [Hb _].
    split; [exact Ho|]. split; [now rewrite Hs, xorb_false_r'|].
    rewrite Hord, xorb_false_r'. cbn [ord]. fold (mag m e).
    now rewrite odd_ext_cond_Zopp by lia.
Qed.

Lemma mul_pos_infinite s : SFmul 53 1024 (S754_infinity s) y = S754_infinity s.
Proof. cbn. now rewrite xorb_false_r'. Qed.

Lemma div_pos_infinite s : SFdiv 53 1024 (S754_infinity s) y = S754_infinity s.
Proof. cbn. now rewrite xorb_false_r'. Qed.

End PositiveOperand.

(** A map of the numbers that keeps the infinities and is monotone on the
    finite numbers is monotone. *)
Lemma monotone_by_cases (F : spec_float -> spec_float) :
  (forall s, F (S754_infinity s) = S754_infinity s) ->
  (forall x, ordinary x -> JS.is_finite x = true -> ordinary (F x)) ->
  (forall x1 x2, ordinary x1 -> ordinary x2 ->
     JS.is_finite x1 = true -> JS.is_finite x2 = true ->
     ord x1 <= ord x2 -> ord (F x1) <= ord (F x2)) ->
  forall x1 x2, ordinary x1 -> ordinary x2 -> ord x1 <= ord x2 ->
  ordinary (F x1) /\ ordinary (F x2) /\ ord (F x1) <= ord (F x2).
Proof.
  intros Hinf Hord Hmono x1 x2 H1 H2 Hle.
  assert (Ho : forall x, ordinary x -> ordinary (F x)).
  { intros x Hx. destruct (JS.is_finite x) eqn:Hf; [now apply Hord|].
    destruct Hx as [Hv Hn]. destruct x; try discriminate. rewrite Hinf. now split. }
  split; [now apply Ho|]. split; [now apply Ho|].
  pose proof OVER_pos.
  destruct (JS.is_finite x1) eqn:Hf1, (JS.is_finite x2) eqn:Hf2.
  - now apply Hmono.
  - pose proof (ordinary_finite_ord x1 H1 Hf1).
    pose proof (ord_bounds (F x1) (Ho x1 H1)).
    destruct H2 as [Hv2 Hn2]. destruct x2 as [|[|]| |]; try discriminate.
    + cbn [ord cond_Zopp] in Hle. lia.
    + rewrite Hinf. cbn [ord cond_Zopp]. lia.
  - pose proof (ordinary_finite_ord x2 H2 Hf2).
    pose proof (ord_bounds (F x2) (Ho x2 H2)).
    destruct H1 as [Hv1 Hn1]. destruct x1 as [|[|]| |]; try discriminate.
    + rewrite Hinf. cbn [ord cond_Zopp]. lia.
    + cbn [ord cond_Zopp] in Hle. lia.
  - destruct H1 as [Hv1 Hn1], H2 as [Hv2 Hn2].
    destruct x1 as [|s1| |]; try discriminate.
    destruct x2 as [|s2| |]; try discriminate.
    rewrite !Hinf. exact Hle.
Qed.

Lemma mul_pos_monotone my ey x1 x2 :
  valid_binary 53 1024 (S754_finite false my ey) = true ->
  ordinary x1 -> ordinary x2 -> ord x1 <= ord x2 ->
  ordinary (SFmul 53 1024 x1 (S754_finite false my ey)) /\
  ordinary (SFmul 53 1024 x2 (S754_finite false my ey)) /\
  ord (SFmul 53 1024 x1 (S754_finite false my ey))
    <= ord (SFmul 53 1024 x2 (S754_finite false my ey)).
Proof.
  intros Hy. pose proof (mag_bounds false my ey Hy) as [Hb _]. pose proof W_pos.
  apply (monotone_by_cases (fun x => SFmul 53 1024 x (S754_finite false my ey))).
  - intros s. now apply mul_pos_infinite.
  - intros x Hx Hf. now apply mul_pos_finite.
  - intros x1' x2' H1 H2 Hf1 Hf2 Hle.
    destruct (mul_pos_finite my ey Hy x1' H1 Hf1) as (_ & _ & ->).
    destruct (mul_pos_finite my ey Hy x2' H2 Hf2) as (_ & _ & ->).
    apply odd_ext_le; [| |exact Hle].
    + intros a b Hab. apply round_ulps_le;
        try (apply Z.mul_nonneg_nonneg; lia); try lia.
      apply Z.mul_le_mono_nonneg_r; [lia|]. apply Z.mul_le_mono_nonneg_r; lia.
    + intros a Ha. apply round_ulps_nonneg; [apply Z.mul_nonneg_nonneg; lia | lia].
Qed.

Lemma div_pos_monotone my ey x1 x2 :
  valid_binary 53 1024 (S754_finite false my ey) = true ->
  ordinary x1 -> ordinary x2 -> ord x1 <= ord x2 ->
  ordinary (SFdiv 53 1024 x1 (S754_finite false my ey)) /\
  ordinary (SFdiv 53 1024 x2 (S754_finite false my ey)) /\
  ord (SFdiv 53 1024 x1 (S754_finite false my ey))
    <= ord (SFdiv 53 1024 x2 (S754_finite false my ey)).
Proof.
  intros Hy. pose proof (mag_bounds false my ey Hy) as [Hb _]. pose proof W_pos.
  apply (monotone_by_cases (fun x => SFdiv 53 1024 x (S754_finite false my ey))).
  - intros s. now apply div_pos_infinite.
  - intros x Hx Hf. now apply div_pos_finite.
  - intros x1' x2' H1 H2 Hf1 Hf2 Hle.
    destruct (div_pos_finite my ey Hy x1' H1 Hf1) as (_ & _ & ->).
    destruct (div_pos_finite my ey Hy x2' H2 Hf2) as (_ & _ & ->).
    apply odd_ext_le; [| |exact Hle].
    + intros a b Hab. apply round_ulps_le;
        try (apply Z.mul_nonneg_nonneg; lia); try lia.
      apply Z.mul_le_mono_nonneg_r; [lia|]. apply Z.mul_le_mono_nonneg_r; lia.
    + intros a Ha. apply round_ulps_nonneg; [apply Z.mul_nonneg_nonneg; lia | lia].
Qed.

(** *** [Math.round] *)

Lemma half_up_integer k : (2 * (k * W) + W) / (2 * W) = k.
Proof.
  pose proof W_pos. replace (2 * (k * W) + W) with ((2 * k + 1) * W) by ring.
  rewrite Z.div_mul_cancel_r by lia.
  Z.to_euclidean_division_equations. lia.
Qed.

Lemma half_up_bound sm Q :
  2 <= Q -> Z.abs sm < 2 ^ 53 -> Z.abs ((2 * sm + Q) / (2 * Q)) < 2 ^ 53.
Proof.
  intros HQ Hsm. assert (H53 : 0 < 2 ^ 53) by reflexivity.
  pose proof (Z.div_mod (2 * sm + Q) (2 * Q) ltac:(lia)) as Hdm.
  pose proof (Z.mod_pos_bound (2 * sm + Q) (2 * Q) ltac:(lia)) as Hr.
  set (n := (2 * sm + Q) / (2 * Q)) in *.
  destruct (Z.le_gt_cases (2 ^ 53) n) as [Hbig|Hsmall].
  - exfalso. assert (2 ^ 53 * (2 * Q) <= 2 * Q * n) by nia. nia.
  - destruct (Z.le_gt_cases n (- 2 ^ 53)) as [Hneg|Hok]; [exfalso|lia].
    assert (2 * Q * n <= - 2 ^ 53 * (2 * Q)) by nia. nia.
Qed.

Lemma half_up_sign sm Q :
  2 <= Q -> sm <> 0 -> (2 * sm + Q) / (2 * Q) <> 0 ->
  ((2 * sm + Q) / (2 * Q) <? 0) = (sm <? 0).
Proof.
  intros HQ Hsm Hn.
  pose proof (Z.div_mod (2 * sm + Q) (2 * Q) ltac:(lia)) as Hdm.
  pose proof (Z.mod_pos_bound (2 * sm + Q) (2 * Q) ltac:(lia)) as Hr.
  set (n := (2 * sm + Q) / (2 * Q)) in *.
  destruct (Z.ltb_spec n 0), (Z.ltb_spec sm 0); try reflexivity; exfalso; nia.
Qed.

Lemma ord_is_finite x : ordinary x -> Z.abs (ord x) < OVER -> JS.is_finite x = true.
Proof.
  intros [Hv Hn] H. destruct x as [s|s| |s m e]; try reflexivity; try discriminate.
  cbn [ord] in H. destruct s; cbn [cond_Zopp] in H; lia.
Qed.

Lemma Math_round_finite x :
  ordinary x -> JS.is_finite x = true ->
  ordinary (JS.Math_round x) /\ JS.is_finite (JS.Math_round x) = true /\
  sign_bit (JS.Math_round x) = sign_bit x /\
  ord (JS.Math_round x) = (2 * ord x + W) / (2 * W) * W.
Proof.
  intros Hx Hf. pose proof W_pos as HW. destruct Hx as [Hv Hn].
  destruct x as [s|s| |s m e]; try discriminate.
  - cbn [JS.Math_round ord]. repeat split.
  - pose proof (valid_finite_bounds _ _ _ Hv) as (He & Hm & _).
    cbn [JS.Math_round]. destruct (Z.leb_spec 0 e) as [He0|He0].
    + repeat split; try assumption. cbn [ord].
      assert (Hk : cond_Zopp s (Zpos m * 2 ^ (e + 1074)) = cond_Zopp s (Zpos m * 2 ^ e) * W).
      { unfold W. rewrite (pow2_add e 1074) by lia. destruct s; cbn [cond_Zopp]; ring. }
      rewrite Hk, half_up_integer. reflexivity.
    + set (Q := 2 ^ (- e)).
      assert (HQ : 2 <= Q).
      { unfold Q. change 2 with (2 ^ 1) at 1. apply pow2_le. lia. }
      assert (HQ2 : 2 ^ (- e + 1) = 2 * Q).
      { unfold Q. rewrite (pow2_add (- e) 1) by lia. change (2 ^ 1) with 2. ring. }
      rewrite HQ2. set (sm := cond_Zopp s (Zpos m)).
      assert (Hsm : Z.abs sm < 2 ^ 53) by (unfold sm; destruct s; cbn [cond_Zopp]; lia).
      assert (Hsm0 : sm <> 0) by (unfold sm; destruct s; cbn [cond_Zopp]; lia).
      assert (Hord : (2 * ord (S754_finite s m e) + W) / (2 * W) = (2 * sm + Q) / (2 * Q)).
      { cbn [ord]. set (P := 2 ^ (e + 1074)).
        assert (HP : 0 < P) by (apply pow2_gt0; lia).
        assert (HWP : W = Q * P).
        { unfold W, Q, P. rewrite <- pow2_add by lia. f_equal. lia. }
        replace (cond_Zopp s (Zpos m * P)) with (sm * P)
          by (unfold sm; destruct s; cbn [cond_Zopp]; ring).
        rewrite HWP. replace (2 * (sm * P) + Q * P) with ((2 * sm + Q) * P) by ring.
        replace (2 * (Q * P)) with (2 * Q * P) by ring.
        apply Z.div_mul_cancel_r; lia. }
      rewrite Hord. set (n := (2 * sm + Q) / (2 * Q)).
      pose proof (half_up_bound sm Q HQ Hsm) as Hn53. fold n in Hn53.
      destruct (Z.eqb_spec n 0) as [Hn0|Hn0].
      * rewrite Hn0. repeat split.
      * destruct (of_Z_exact n Hn53) as (Ho & Hon & Hs).
        unfold JS.of_Z, JS.prec, JS.emax.
        split; [exact Ho|]. split; [|split; [|exact Hon]].
        -- apply ord_is_finite; [exact Ho|]. rewrite Hon, Z.abs_mul, (Z.abs_eq W) by lia.
           assert (HO : OVER = 2 ^ 53 * 2 ^ 2045) by reflexivity.
           assert (W < 2 ^ 2045) by reflexivity. rewrite HO. nia.
        -- rewrite (Hs Hn0). unfold n. rewrite (half_up_sign sm Q HQ Hsm0 Hn0).
           unfold sm. now destruct s.
Qed.

Lemma Math_round_monotone x1 x2 :
  ordinary x1 -> ordinary x2 -> ord x1 <= ord x2 ->
  ordinary (JS.Math_round x1) /\ ordinary (JS.Math_round x2) /\
  ord (JS.Math_round x1) <= ord (JS.Math_round x2).
Proof.
  apply (monotone_by_cases JS.Math_round).
  - reflexivity.
  - intros x Hx Hf. now apply Math_round_finite.
  - intros y1 y2 H1 H2 Hf1 Hf2 Hle. pose proof W_pos.
    destruct (Math_round_finite y1 H1 Hf1) as (_ & _ & _ & ->).
    destruct (Math_round_finite y2 H2 Hf2) as (_ & _ & _ & ->).
    apply Z.mul_le_mono_nonneg_r; [lia|]. apply Z.div_le_mono; lia.
Qed.

(** *** [roundToNearest] *)

Lemma roundToNearest_monotone_ord my ey x1 x2 :
  valid_binary 53 1024 (S754_finite false my ey) = true ->
  ordinary x1 -> ordinary x2 -> ord x1 <= ord x2 ->
  ordinary (roundToNearest x1 (S754_finite false my ey)) /\
  ordinary (roundToNearest x2 (S754_finite false my ey)) /\
  ord (roundToNearest x1 (S754_finite false my ey))
    <= ord (roundToNearest x2 (S754_finite false my ey)).
Proof.
  intros Hy H1 H2 Hle. unfold roundToNearest, JS.mul, JS.div, JS.prec, JS.emax.
  destruct (div_pos_monotone my ey x1 x2 Hy H1 H2 Hle) as (Hd1 & Hd2 & Hdle).
  destruct (Math_round_monotone _ _ Hd1 Hd2 Hdle) as (Hr1 & Hr2 & Hrle).
  exact (mul_pos_monotone my ey _ _ Hy Hr1 Hr2 Hrle).
Qed.

(** *** Classifying the inputs *)

Lemma leb_ordinary x y :
  JS.is_number x -> JS.is_number y -> JS.leb x y = true ->
  ordinary x /\ ordinary y /\ ord x <= ord y.
Proof.
  intros Hx Hy H. unfold JS.leb in H.
  assert (Nx : is_nan x = false) by (destruct x; try reflexivity; discriminate H).
  assert (Ny : is_nan y = false) by (destruct x, y; try reflexivity; discriminate H).
  assert (Ox : ordinary x) by (split; assumption).
  assert (Oy : ordinary y) by (split; assumption).
  rewrite (SFleb_ord x y Ox Oy) in H. apply Z.leb_le in H. auto.
Qed.

Lemma ordinary_leb x y :
  ordinary x -> ordinary y -> ord x <= ord y -> JS.leb x y = true.
Proof.
  intros Hx Hy H. unfold JS.leb. rewrite (SFleb_ord x y Hx Hy). now apply Z.leb_le.
Qed.

(** A positive number is a positive finite double or +Infinity. *)
Lemma positive_cases x :
  JS.ltb (JS.of_Z 0) x = true ->
  (exists m e, x = S754_finite false m e) \/ x = S754_infinity false.
Proof.
  intros H. destruct x as [s|[|]| |[|] m e]; try discriminate H; eauto.
Qed.

Lemma positive_finite x :
  JS.ltb (JS.of_Z 0) x = true -> JS.is_finite x = true ->
  exists m e, x = S754_finite false m e.
Proof.
  intros H Hf. destruct (positive_cases x H) as [Hc|Hc]; [assumption|rewrite Hc in Hf; discriminate Hf].
Qed.

Lemma SFmul_comm x y : SFmul 53 1024 x y = SFmul 53 1024 y x.
Proof.
  destruct x as [sx|sx| |sx mx ex], y as [sy|sy| |sy my ey]; cbn [SFmul];
    rewrite ?(xorb_comm sx sy); try reflexivity.
  now rewrite (Pos.mul_comm mx my), (Z.add_comm ex ey).
Qed.

(** Multiplying a number that is not negative by a larger positive factor
    gives at least as much. *)
Lemma mul_nonneg_monotone x m1 e1 m2 e2 :
  ordinary x -> sign_bit x = false ->
  valid_binary 53 1024 (S754_finite false m1 e1) = true ->
  valid_binary 53 1024 (S754_finite false m2 e2) = true ->
  ord (S754_finite false m1 e1) <= ord (S754_finite false m2 e2) ->
  ordinary (SFmul 53 1024 x (S754_finite false m1 e1)) /\
  ordinary (SFmul 53 1024 x (S754_finite false m2 e2)) /\
  ord (SFmul 53 1024 x (S754_finite false m1 e1))
    <= ord (SFmul 53 1024 x (S754_finite false m2 e2)).
Proof.
  intros [Hv Hn] Hs H1 H2 Hle.
  destruct x as [s|s| |s m e]; try discriminate Hn; cbn [sign_bit] in Hs; subst s.
  - cbn [SFmul xorb ord]. repeat split; lia.
  - cbn [SFmul xorb ord]. repeat split; lia.
  - rewrite !(SFmul_comm (S754_finite false m e)).
    apply mul_pos_monotone; [exact Hv|split; [exact H1|reflexivity]|split; [exact H2|reflexivity]|exact Hle].
Qed.

(** Division and multiplication by a positive finite double and
    [Math.round] keep a number a number and keep its sign. *)
Lemma div_pos_sign my ey x :
  valid_binary 53 1024 (S754_finite false my ey) = true -> ordinary x ->
  ordinary (SFdiv 53 1024 x (S754_finite false my ey)) /\
  sign_bit (SFdiv 53 1024 x (S754_finite false my ey)) = sign_bit x.
Proof.
  intros Hy Hx. destruct (JS.is_finite x) eqn:Hf.
  - destruct (div_pos_finite my ey Hy x Hx Hf) as (Ho & Hs & _). auto.
  - destruct Hx as [Hv Hn]. destruct x as [|s| |]; try discriminate.
    rewrite div_pos_infinite. repeat split.
Qed.

Lemma mul_pos_sign my ey x :
  valid_binary 53 1024 (S754_finite false my ey) = true -> ordinary x ->
  ordinary (SFmul 53 1024 x (S754_finite false my ey)) /\
  sign_bit (SFmul 53 1024 x (S754_finite false my ey)) = sign_bit x.
Proof.
  intros Hy Hx. destruct (JS.is_finite x) eqn:Hf.
  - destruct (mul_pos_finite my ey Hy x Hx Hf) as (Ho & Hs & _). auto.
  - destruct Hx as [Hv Hn]. destruct x as [|s| |]; try discriminate.
    rewrite mul_pos_infinite. repeat split.
Qed.

Lemma Math_round_sign x :
  ordinary x -> ordinary (JS.Math_round x) /\ sign_bit (JS.Math_round x) = sign_bit x.
Proof.
  intros Hx. destruct (JS.is_finite x) eqn:Hf.
  - destruct (Math_round_finite x Hx Hf) as (Ho & _ & Hs & _). auto.
  - destruct Hx as [Hv Hn]. destruct x as [|s| |]; try discriminate. repeat split.
Qed.

Lemma roundToNearest_sign my ey x :
  valid_binary 53 1024 (S754_finite false my ey) = true -> ordinary x ->
  ordinary (roundToNearest x (S754_finite false my ey)) /\
  sign_bit (roundToNearest x (S754_finite false my ey)) = sign_bit x.
Proof.
  intros Hy Hx. unfold roundToNearest, JS.mul, JS.div, JS.prec, JS.emax.
  destruct (div_pos_sign my ey x Hy Hx) as [H1 S1].
  destruct (Math_round_sign _ H1) as [H2 S2].
  destruct (mul_pos_sign my ey _ Hy H2) as [H3 S3].
  split; [exact H3|]. now rewrite S3, S2, S1.
Qed.

(** [1 - t <= 1 + t] for a number [t] that is not negative. *)
Lemma one_minus_plus t :
  ordinary t -> sign_bit t = false ->
  ordinary (JS.sub (JS.of_Z 1) t) /\ ordinary (JS.add (JS.of_Z 1) t) /\
  ord (JS.sub (JS.of_Z 1) t) <= ord (JS.add (JS.of_Z 1) t).
Proof.
  intros [Hv Hn] Hs. pose proof OVER_pos.
  change (JS.of_Z 1) with (S754_finite false 4503599627370496 (-52)).
  unfold JS.sub, JS.add, JS.prec, JS.emax.
  destruct t as [s|s| |s m e]; try discriminate Hn; cbn [sign_bit] in Hs; subst s.
  - cbn [SFsub SFadd]. repeat split; lia.
  - cbn [SFsub SFadd negb ord cond_Zopp]. repeat split; lia.
  - assert (H1 : valid_binary 53 1024 (S754_finite false 4503599627370496 (-52)) = true)
      by reflexivity.
    destruct (sub_finite false 4503599627370496 (-52) false m e H1 Hv) as [Ho1 ->].
    destruct (add_finite false 4503599627370496 (-52) false m e H1 Hv) as [Ho2 ->].
    split; [exact Ho1|]. split; [exact Ho2|].
    apply round_signed_le. pose proof (mag_bounds false m e Hv) as [Hb _].
    cbn [ord cond_Zopp]. fold (mag m e). lia.
Qed.

(** *** Integers: the quotient is rounded to the right integer *)

Lemma upper_core f I P V k Wd :
  0 < I -> 0 < P -> 0 < Wd -> I * P < Wd ->
  (2 * f - 1) * I * P <= 2 * V * Wd -> 2 * V + 1 <= (2 * k + 1) * I ->
  2 * (P * f) < (2 * k + 1) * Wd.
Proof.
  intros HI HP HW Hs Hf Hk.
  assert (H1 : 2 * f * I * P <= 2 * V * Wd + I * P) by lia.
  assert (H2 : (2 * V + 1) * Wd <= (2 * k + 1) * I * Wd)
    by (apply Z.mul_le_mono_nonneg_r; lia).
  apply (Z.mul_lt_mono_pos_l I); [assumption|]. lia.
Qed.

Lemma lower_core f I P A k Wd :
  0 < I -> 0 < P -> 0 < Wd -> I * P < Wd ->
  2 * A * Wd <= (2 * f + 1) * I * P -> (2 * k - 1) * I + 1 <= 2 * A ->
  (2 * k - 1) * Wd < 2 * (P * f).
Proof.
  intros HI HP HW Hs Hf Hk.
  assert (H2 : ((2 * k - 1) * I + 1) * Wd <= 2 * A * Wd)
    by (apply Z.mul_le_mono_nonneg_r; lia).
  apply (Z.mul_lt_mono_pos_l I); [assumption|]. lia.
Qed.

Lemma W_half : W = 2 * 2 ^ 1073.
Proof. reflexivity. Qed.

Lemma clamp_le_self r : 0 <= r -> clamp r <= r.
Proof. intros. unfold clamp. destruct (Z.ltb_spec r OVER); lia. Qed.

Lemma clamp_small r : r < OVER -> clamp r = r.
Proof. intros. unfold clamp. destruct (Z.ltb_spec r OVER); lia. Qed.

Lemma half_lt_OVER j : 0 <= j < 2 ^ 53 -> j * 2 ^ 1073 < OVER.
Proof.
  intros Hj. rewrite OVER_eq.
  pose proof (pow2_gt0 1073 ltac:(lia)) as P1.
  pose proof (pow2_le 1073 2045 ltac:(lia)) as P2.
  apply Z.lt_le_trans with (2 ^ 53 * 2 ^ 1073).
  - apply Z.mul_lt_mono_pos_r; lia.
  - apply Z.mul_le_mono_nonneg_l; [|exact P2]. apply Z.lt_le_incl, pow2_gt0. lia.
Qed.

Lemma cross_half j I A T :
  0 <= T -> 0 <= I -> j * I <= 2 * A ->
  j * T * (I * (2 * T)) * (I * (2 * T)) <= A * (2 * T) * (2 * T) * (I * (2 * T)).
Proof.
  intros HT HI H.
  replace (j * T * (I * (2 * T)) * (I * (2 * T)))
    with ((j * I) * (T * (2 * T) * (I * (2 * T)))) by ring.
  replace (A * (2 * T) * (2 * T) * (I * (2 * T)))
    with ((2 * A) * (T * (2 * T) * (I * (2 * T)))) by ring.
  apply Z.mul_le_mono_nonneg_r; [|assumption].
  repeat apply Z.mul_nonneg_nonneg; lia.
Qed.

Lemma cross_half' j I A T :
  0 <= T -> 0 <= I -> 2 * A <= j * I ->
  A * (2 * T) * (2 * T) * (I * (2 * T)) <= j * T * (I * (2 * T)) * (I * (2 * T)).
Proof.
  intros HT HI H.
  replace (j * T * (I * (2 * T)) * (I * (2 * T)))
    with ((j * I) * (T * (2 * T) * (I * (2 * T)))) by ring.
  replace (A * (2 * T) * (2 * T) * (I * (2 * T)))
    with ((2 * A) * (T * (2 * T) * (I * (2 * T)))) by ring.
  apply Z.mul_le_mono_nonneg_r; [|assumption].
  repeat apply Z.mul_nonneg_nonneg; lia.
Qed.

Section Quotient.
Variables (A I : Z).
Hypotheses (HA : 0 <= A < 2 ^ 52) (HI : 0 < I < 2 ^ 52).

Let N := A * W * W.
Let D := I * W.
Let kk := scale_exp N D.
Let f := rne_div N (D * 2 ^ kk).

Lemma quotient_scale : I * 2 ^ kk < W.
Proof.
  pose proof W_pos as HW. assert (H52 : 0 < 2 ^ 52) by reflexivity.
  assert (HWbig : 2 ^ 52 < W) by reflexivity.
  pose proof (scale_exp_nonneg N D) as Hk. fold kk in Hk.
  destruct (Z.eq_dec kk 0) as [E|E].
  - rewrite E. change (2 ^ 0) with 1. lia.
  - pose proof (scale_exp_lower N D ltac:(unfold N; apply Z.mul_nonneg_nonneg;
        [apply Z.mul_nonneg_nonneg|]; lia) ltac:(unfold D; apply Z.mul_pos_pos; lia)
        ltac:(fold kk; lia)) as Hl.
    fold kk in Hl. rewrite (pow2_add kk 52) in Hl by lia. unfold N, D in Hl.
    pose proof (pow2_gt0 kk Hk) as Hp.
    assert (Hl' : 2 ^ kk * 2 ^ 52 * I <= A * W).
    { apply (mul_cancel_le _ _ W HW).
      replace (2 ^ kk * 2 ^ 52 * I * W) with (2 ^ kk * 2 ^ 52 * (I * W)) by ring. exact Hl. }
    assert (Hu : A * W < 2 ^ 52 * W) by (apply Z.mul_lt_mono_pos_r; lia).
    apply (Z.mul_lt_mono_pos_l (2 ^ 52)); [assumption|]. lia.
Qed.

Lemma quotient_raw : round_raw N D = 2 ^ kk * f.
Proof. reflexivity. Qed.

Lemma quotient_nearest :
  (2 * f - 1) * I * 2 ^ kk <= 2 * A * W /\ 2 * A * W <= (2 * f + 1) * I * 2 ^ kk.
Proof.
  pose proof W_pos as HW.
  pose proof (pow2_gt0 kk (scale_exp_nonneg N D)) as Hp.
  assert (HD : 0 < D * 2 ^ kk) by (unfold D; repeat apply Z.mul_pos_pos; lia).
  destruct (rne_div_spec N (D * 2 ^ kk) HD) as [[Hlo Hhi] _]. fold f in Hlo, Hhi.
  unfold N, D in Hlo, Hhi. split.
  - apply (mul_cancel_le _ _ W HW).
    replace ((2 * f - 1) * I * 2 ^ kk * W) with ((2 * f - 1) * (I * W * 2 ^ kk)) by ring.
    replace (2 * A * W * W) with (2 * (A * W * W)) by ring. exact Hlo.
  - apply (mul_cancel_le _ _ W HW).
    replace ((2 * f + 1) * I * 2 ^ kk * W) with ((2 * f + 1) * (I * W * 2 ^ kk)) by ring.
    replace (2 * A * W * W) with (2 * (A * W * W)) by ring. exact Hhi.
Qed.

(** Half-integers below [2^53] are doubles: rounding cannot cross them. *)
Lemma quotient_ge_half j :
  0 <= j < 2 ^ 53 -> j * I <= 2 * A -> j * 2 ^ 1073 <= round_ulps N D.
Proof.
  intros Hj Hle. pose proof W_pos as HW.
  assert (HD : 0 < D) by (unfold D; apply Z.mul_pos_pos; lia).
  assert (Hrep : representable (j * 2 ^ 1073)) by (exists j, 1073; repeat split; lia).
  pose proof (half_lt_OVER j Hj) as Hov.
  rewrite <- (round_ulps_exact (j * 2 ^ 1073) D Hrep Hov HD).
  pose proof (pow2_gt0 1073 ltac:(lia)) as P.
  apply round_ulps_le; try assumption.
  - apply Z.mul_nonneg_nonneg; [|lia]. apply Z.mul_nonneg_nonneg; lia.
  - unfold N; apply Z.mul_nonneg_nonneg; [apply Z.mul_nonneg_nonneg|]; lia.
  - unfold N, D. rewrite W_half. apply cross_half; lia.
Qed.

Lemma quotient_le_half j :
  0 <= j < 2 ^ 53 -> 2 * A <= j * I -> round_ulps N D <= j * 2 ^ 1073.
Proof.
  intros Hj Hle. pose proof W_pos as HW.
  assert (HD : 0 < D) by (unfold D; apply Z.mul_pos_pos; lia).
  assert (Hrep : representable (j * 2 ^ 1073)) by (exists j, 1073; repeat split; lia).
  pose proof (half_lt_OVER j Hj) as Hov.
  rewrite <- (round_ulps_exact (j * 2 ^ 1073) D Hrep Hov HD) at 1.
  pose proof (pow2_gt0 1073 ltac:(lia)) as P.
  apply round_ulps_le; try assumption.
  - unfold N; apply Z.mul_nonneg_nonneg; [apply Z.mul_nonneg_nonneg|]; lia.
  - apply Z.mul_nonneg_nonneg; [|lia]. apply Z.mul_nonneg_nonneg; lia.
  - unfold N, D. rewrite W_half. apply cross_half'; lia.
Qed.

(** A quotient strictly below a half-integer is rounded strictly below it. *)
Lemma quotient_lt_half j :
  2 * A + 1 <= (2 * j + 1) * I -> 2 * round_ulps N D < (2 * j + 1) * W.
Proof.
  intros Hlt. pose proof W_pos as HW.
  pose proof (pow2_gt0 kk (scale_exp_nonneg N D)) as Hp.
  pose proof quotient_scale as Hs. destruct quotient_nearest as [Hn _].
  pose proof (upper_core f I (2 ^ kk) A j W ltac:(lia) Hp HW Hs Hn Hlt) as Hu.
  assert (Hraw : 0 <= round_raw N D).
  { apply round_raw_nonneg; [unfold N; apply Z.mul_nonneg_nonneg;
      [apply Z.mul_nonneg_nonneg|]; lia | unfold D; apply Z.mul_pos_pos; lia]. }
  pose proof (clamp_le_self _ Hraw) as Hc. unfold round_ulps.
  rewrite quotient_raw in Hc |- *. lia.
Qed.

(** A quotient strictly above a half-integer is rounded strictly above it. *)
Lemma quotient_gt_half j :
  0 <= j < 2 ^ 52 -> (2 * j - 1) * I + 1 <= 2 * A -> 2 * A <= (2 * j + 1) * I ->
  (2 * j - 1) * W < 2 * round_ulps N D.
Proof.
  intros Hj Hgt Hle. pose proof W_pos as HW.
  pose proof (pow2_gt0 kk (scale_exp_nonneg N D)) as Hp.
  pose proof quotient_scale as Hs. destruct quotient_nearest as [_ Hn].
  pose proof (lower_core f I (2 ^ kk) A j W ltac:(lia) Hp HW Hs Hn Hgt) as Hl.
  assert (H53 : 2 ^ 53 = 2 * 2 ^ 52) by reflexivity.
  pose proof (quotient_le_half (2 * j + 1) ltac:(lia) Hle) as Hup.
  pose proof (half_lt_OVER (2 * j + 1) ltac:(lia)) as Hov.
  unfold round_ulps in *.
  assert (Hsmall : round_raw N D < OVER).
  { unfold clamp in Hup. destruct (Z.ltb_spec (round_raw N D) OVER); lia. }
  rewrite (clamp_small _ Hsmall), quotient_raw. lia.
Qed.

End Quotient.

Lemma of_Z_positive n :
  0 < n < 2 ^ 53 ->
  exists m e, JS.of_Z n = S754_finite false m e /\
              valid_binary 53 1024 (S754_finite false m e) = true /\ mag m e = n * W.
Proof.
  intros Hn. destruct (of_Z_exact n ltac:(lia)) as ([Hv Hnan] & Hord & Hs).
  pose proof W_pos. pose proof OVER_pos.
  assert (Hlt : Z.abs (n * W) < OVER).
  { rewrite Z.abs_eq by (apply Z.mul_nonneg_nonneg; lia). unfold W. rewrite OVER_eq.
    pose proof (pow2_lt 1074 2045 ltac:(lia)) as P2.
    apply Z.lt_trans with (2 ^ 53 * 2 ^ 1074).
    - apply Z.mul_lt_mono_pos_r; [apply pow2_gt0|]; lia.
    - apply Z.mul_lt_mono_pos_l; [apply pow2_gt0|]; lia. }
  specialize (Hs ltac:(lia)).
  replace (n <? 0) with false in Hs by (symmetry; apply Z.ltb_ge; lia).
  unfold JS.of_Z, JS.prec, JS.emax.
  destruct (binary_normalize 53 1024 n 0 false) as [s|s| |s m e]; try discriminate Hnan.
  - cbn [ord] in Hord. nia.
  - cbn [ord] in Hord. rewrite <- Hord in Hlt. destruct s; cbn [cond_Zopp] in Hlt; lia.
  - cbn [sign_bit] in Hs. subst s.
    exists m, e. repeat split; [exact Hv | exact Hord].
Qed.

Lemma odd_ext_scaled R k w :
  0 < w -> odd_ext R (k * w) = Z.sgn k * R (Z.abs k * w).
Proof.
  intros Hw. unfold odd_ext.
  now rewrite Z.sgn_mul, (Z.sgn_pos w), Z.mul_1_r, Z.abs_mul, (Z.abs_eq w) by lia.
Qed.

Lemma integer_quotient_bounds V I :
  Z.abs V < 2 ^ 51 -> 0 < I < 2 ^ 51 ->
  let k := (2 * V + I) / (2 * I) in
  let o := Z.sgn V * round_ulps (Z.abs V * W * W) (I * W) in
  (2 * k - 1) * W <= 2 * o < (2 * k + 1) * W /\ Z.abs k <= 2 ^ 51 /\
  Z.abs k * I < 2 ^ 53.
Proof.
  intros HV HI k o. pose proof W_pos as HW.
  assert (H52 : 2 ^ 52 = 2 * 2 ^ 51) by reflexivity.
  assert (H53 : 2 ^ 53 = 4 * 2 ^ 51) by reflexivity.
  assert (P51 : 0 < 2 ^ 51) by reflexivity.
  pose proof (Z.div_mod (2 * V + I) (2 * I) ltac:(lia)) as Hdm.
  pose proof (Z.mod_pos_bound (2 * V + I) (2 * I) ltac:(lia)) as Hr.
  fold k in Hdm.
  assert (Hk1 : k * (2 * I) <= 2 * V + I) by lia.
  assert (Hk2 : 2 * V + I < (k + 1) * (2 * I)) by lia.
  assert (Hkb : Z.abs k <= 2 ^ 51) by nia.
  assert (Hki : Z.abs k * I < 2 ^ 53) by nia.
  split; [|split; [exact Hkb|exact Hki]].
  pose proof (round_ulps_nonneg (Z.abs V * W * W) (I * W)
                ltac:(repeat apply Z.mul_nonneg_nonneg; lia)
                ltac:(apply Z.mul_pos_pos; lia)) as HR.
  unfold o. destruct (Z.lt_trichotomy V 0) as [Hneg|[Hz|Hpos]].
  - (* negative *)
    rewrite Z.sgn_neg, Z.abs_neq by lia.
    assert (Hk0 : k <= 0) by nia.
    pose proof (quotient_le_half (- V) I ltac:(lia) ltac:(lia) (2 * (- k) + 1)
                  ltac:(lia) ltac:(lia)) as Hup.
    pose proof (quotient_gt_half (- V) I ltac:(lia) ltac:(lia) (- k)
                  ltac:(lia) ltac:(lia) ltac:(lia)) as Hlo.
    rewrite W_half in *. lia.
  - subst V. change (Z.sgn 0) with 0. rewrite Z.mul_0_l.
    assert (Hk0 : k = 0) by nia. rewrite Hk0. lia.
  - rewrite Z.sgn_pos by lia. rewrite Z.abs_eq in HR |- * by lia.
    assert (Hk0 : 0 <= k) by nia.
    pose proof (quotient_lt_half V I ltac:(lia) ltac:(lia) k ltac:(lia)) as Hup.
    assert (Hlo : (2 * k - 1) * W <= 2 * round_ulps (V * W * W) (I * W)).
    { destruct (Z.le_gt_cases k 0) as [Hk|Hk].
      - assert ((2 * k - 1) * W <= 0) by (apply Z.mul_nonpos_nonneg; lia). lia.
      - pose proof (quotient_ge_half V I ltac:(lia) ltac:(lia) (2 * k - 1)
                      ltac:(lia) ltac:(lia)) as Hge.
        rewrite W_half in *. lia. }
    lia.
Qed.

Lemma roundToNearest_integers_ord V I :
  Z.abs V < 2 ^ 51 -> 0 < I < 2 ^ 51 ->
  ordinary (roundToNearest (JS.of_Z V) (JS.of_Z I)) /\
  ord (roundToNearest (JS.of_Z V) (JS.of_Z I)) = I * ((2 * V + I) / (2 * I)) * W.
Proof.
  intros HV HI. pose proof W_pos as HW.
  assert (H53 : 2 ^ 53 = 4 * 2 ^ 51) by reflexivity.
  assert (P51 : 0 < 2 ^ 51) by reflexivity.
  destruct (of_Z_exact V ltac:(lia)) as (Ov & Hov & _).
  destruct (of_Z_positive I ltac:(lia)) as (mi & ei & Ei & Vi & Hmag).
  destruct (integer_quotient_bounds V I HV HI) as (Hq & Hk & Hki).
  set (k := (2 * V + I) / (2 * I)) in *.
  unfold roundToNearest, JS.mul, JS.div. rewrite Ei.
  unfold JS.of_Z, JS.prec, JS.emax in *.
  set (v := binary_normalize 53 1024 V 0 false) in *.
  assert (Fv : JS.is_finite v = true).
  { apply ord_is_finite; [exact Ov|]. rewrite Hov.
    rewrite Z.abs_mul, (Z.abs_eq W) by lia. unfold W. rewrite OVER_eq.
    pose proof (pow2_lt 1074 2045 ltac:(lia)).
    apply Z.lt_trans with (2 ^ 53 * 2 ^ 1074).
    - apply Z.mul_lt_mono_pos_r; [apply pow2_gt0|]; lia.
    - apply Z.mul_lt_mono_pos_l; [apply pow2_gt0|]; lia. }
  destruct (div_pos_finite mi ei Vi v Ov Fv) as (Oq & _ & Hoq).
  rewrite Hov, Hmag, odd_ext_scaled in Hoq by lia.
  set (q := SFdiv 53 1024 v (S754_finite false mi ei)) in *.
  rewrite <- Hoq in Hq.
  assert (Fq : JS.is_finite q = true).
  { apply ord_is_finite; [exact Oq|].
    pose proof (half_lt_OVER (2 * Z.abs k + 1) ltac:(lia)) as Hh.
    rewrite W_half in Hq. lia. }
  destruct (Math_round_finite q Oq Fq) as (Or & Fr & _ & Hor).
  assert (Hn : (2 * ord q + W) / (2 * W) = k).
  { symmetry. apply (Z.div_unique _ _ _ (2 * ord q + W - 2 * W * k)); lia. }
  rewrite Hn in Hor. set (r := JS.Math_round q) in *.
  destruct (mul_pos_finite mi ei Vi r Or Fr) as (Om & _ & Hom).
  split; [exact Om|]. rewrite Hom, Hor, Hmag, odd_ext_scaled by lia.
  replace (Z.abs k * W * (I * W)) with (Z.abs k * I * W * W) by ring.
  rewrite round_ulps_exact.
  - pose proof (Z.abs_sgn k). nia.
  - exists (Z.abs k * I), 1074. repeat split; try lia;
      try (apply Z.mul_nonneg_nonneg; lia).
  - unfold W. rewrite OVER_eq.
    pose proof (pow2_lt 1074 2045 ltac:(lia)).
    apply Z.lt_trans with (2 ^ 53 * 2 ^ 1074).
    + apply Z.mul_lt_mono_pos_r; [apply pow2_gt0; lia|]. exact Hki.
    + apply Z.mul_lt_mono_pos_l; [apply pow2_gt0|]; lia.
  - lia.
Qed.

Lemma SFeqb_ord x y : ordinary x -> ordinary y -> ord x = ord y -> SFeqb x y = true.
Proof.
  intros Hx Hy H. unfold SFeqb. rewrite (SFcompare_ord x y Hx Hy), H, Z.compare_refl.
  reflexivity.
Qed.

Lemma roundToNearest_integers_eqb V I :
  Z.abs V < 2 ^ 51 -> 0 < I < 2 ^ 51 ->
  SFeqb (roundToNearest (JS.of_Z V) (JS.of_Z I))
        (JS.of_Z (I * ((2 * V + I) / (2 * I)))) = true.
Proof.
  intros HV HI. destruct (roundToNearest_integers_ord V I HV HI) as [Ho Hord].
  destruct (integer_quotient_bounds V I HV HI) as (_ & Hk & Hki).
  set (k := (2 * V + I) / (2 * I)) in *.
  assert (Hb : Z.abs (I * k) < 2 ^ 53).
  { rewrite Z.abs_mul, (Z.abs_eq I) by lia. lia. }
  destruct (of_Z_exact (I * k) Hb) as (Ot & Hot & _).
  apply SFeqb_ord; [exact Ho | exact Ot |].
  rewrite Hord. unfold JS.of_Z, JS.prec, JS.emax. now rewrite Hot.
Qed.

End Arithmetic.

(** ** The ranges of the resolver *)

Module Ranges.
Import Binary64 Binary64Facts Arithmetic.

(** The literals of the module are positive finite doubles. *)
Ltac literal c :=
  let v := eval vm_compute in c in
  replace c with v by (vm_compute; reflexivity).

Ltac literals :=
  literal (JS.of_Z 1); literal (JS.of_Z 100); literal (JS.of_Z 1000);
  literal (JS.decimal 101 2); literal (JS.decimal 110 2); literal (JS.decimal 133 2);
  literal (JS.decimal 102 2); literal (JS.decimal 104 2).

Lemma number_ordinary x : JS.is_number x -> is_nan x = false -> ordinary x.
Proof. intros; split; assumption. Qed.

Lemma positive_ordinary x :
  JS.is_number x -> JS.ltb (JS.of_Z 0) x = true -> ordinary x /\ sign_bit x = false.
Proof.
  intros Hv H. destruct (positive_cases x H) as [(m & e & ->)| ->]; repeat split; assumption.
Qed.

Lemma positive_available x :
  JS.ltb (JS.of_Z 0) x = true -> JS.leb x (JS.of_Z 0) = false.
Proof.
  intros H. destruct (positive_cases x H) as [(m & e & ->)| ->]; reflexivity.
Qed.

Lemma estimatedSpotPerOz_nonneg a :
  JS.is_number a -> JS.ltb (JS.of_Z 0) a = true ->
  ordinary (estimatedSpotPerOz a) /\ sign_bit (estimatedSpotPerOz a) = false.
Proof.
  intros Hv Ha. destruct (positive_ordinary a Hv Ha) as [Ho Hs].
  unfold estimatedSpotPerOz, JS.div, JS.prec, JS.emax.
  literal (JS.of_Z 1000). literal (JS.decimal 101 2).
  match goal with |- context [SFdiv 53 1024 a (S754_finite false ?m ?e)] =>
    destruct (div_pos_sign m e a eq_refl Ho) as [H1 S1] end.
  match goal with |- context [SFdiv 53 1024 (SFdiv 53 1024 a ?c) (S754_finite false ?m ?e)] =>
    destruct (div_pos_sign m e (SFdiv 53 1024 a c) eq_refl H1) as [H2 S2] end.
  split; [exact H2|]. now rewrite S2, S1.
Qed.

Lemma one_oz_ordered a :
  JS.is_number a -> JS.ltb (JS.of_Z 0) a = true ->
  (ordinary (one_oz_low a) /\ sign_bit (one_oz_low a) = false) /\
  (ordinary (one_oz_high a) /\ sign_bit (one_oz_high a) = false) /\
  ord (one_oz_low a) <= ord (one_oz_high a).
Proof.
  intros Hv Ha. destruct (estimatedSpotPerOz_nonneg a Hv Ha) as [He Hs].
  unfold one_oz_low, one_oz_high. set (est := estimatedSpotPerOz a) in *.
  unfold JS.mul, JS.prec, JS.emax.
  literal (JS.of_Z 1). literal (JS.decimal 110 2). literal (JS.decimal 133 2).
  match goal with
  | |- context [SFmul 53 1024 est (S754_finite false ?m1 ?e1)] =>
    match goal with
    | |- context [SFmul 53 1024 est (S754_finite false ?m2 ?e2)] =>
      tryif constr_eq m1 m2 then fail else
      destruct (mul_nonneg_monotone est m1 e1 m2 e2 He Hs eq_refl eq_refl
                  ltac:(vm_compute; discriminate)) as (Hl & Hh & Hle);
      destruct (mul_pos_sign m1 e1 est eq_refl He) as [_ Sl];
      destruct (mul_pos_sign m2 e2 est eq_refl He) as [_ Sh]
    end
  end.
  match goal with |- context [roundToNearest _ (S754_finite false ?m ?e)] =>
    destruct (roundToNearest_monotone_ord m e _ _ eq_refl Hl Hh Hle) as (R1 & R2 & Rle);
    destruct (roundToNearest_sign m e _ eq_refl Hl) as [_ T1];
    destruct (roundToNearest_sign m e _ eq_refl Hh) as [_ T2]
  end.
  repeat split; try apply R1; try apply R2; try exact Rle.
  - now rewrite T1, Sl.
  - now rewrite T2, Sh.
Qed.

Lemma hundred_oz_ordered a :
  JS.is_number a -> JS.ltb (JS.of_Z 0) a = true ->
  (ordinary (hundred_oz_low a) /\ sign_bit (hundred_oz_low a) = false) /\
  (ordinary (hundred_oz_high a) /\ sign_bit (hundred_oz_high a) = false) /\
  ord (hundred_oz_low a) <= ord (hundred_oz_high a).
Proof.
  intros Hv Ha. destruct (estimatedSpotPerOz_nonneg a Hv Ha) as [He Hs].
  unfold hundred_oz_low, hundred_oz_high. set (est := estimatedSpotPerOz a) in *.
  unfold JS.mul, JS.prec, JS.emax.
  literal (JS.of_Z 100). literal (JS.decimal 102 2). literal (JS.decimal 104 2).
  match goal with |- context [SFmul 53 1024 est (S754_finite false ?m ?e)] =>
    destruct (mul_pos_sign m e est eq_refl He) as [He' Hs'];
    rewrite Hs in Hs';
    set (est' := SFmul 53 1024 est (S754_finite false m e)) in *
  end.
  match goal with
  | |- context [SFmul 53 1024 est' (S754_finite false ?m1 ?e1)] =>
    match goal with
    | |- context [SFmul 53 1024 est' (S754_finite false ?m2 ?e2)] =>
      tryif constr_eq m1 m2 then fail else
      destruct (mul_nonneg_monotone est' m1 e1 m2 e2 He' Hs' eq_refl eq_refl
                  ltac:(vm_compute; discriminate)) as (Hl & Hh & Hle);
      destruct (mul_pos_sign m1 e1 est' eq_refl He') as [_ Sl];
      destruct (mul_pos_sign m2 e2 est' eq_refl He') as [_ Sh]
    end
  end.
  match goal with |- context [roundToNearest _ (S754_finite false ?m ?e)] =>
    destruct (roundToNearest_monotone_ord m e _ _ eq_refl Hl Hh Hle) as (R1 & R2 & Rle);
    destruct (roundToNearest_sign m e _ eq_refl Hl) as [_ T1];
    destruct (roundToNearest_sign m e _ eq_refl Hh) as [_ T2]
  end.
  repeat split; try apply R1; try apply R2; try exact Rle.
  - now rewrite T1, Sl.
  - now rewrite T2, Sh.
Qed.

Lemma capital_ordered a band incr :
  JS.is_number a -> JS.is_number band -> JS.is_number incr ->
  JS.is_finite a = true -> JS.is_finite band = true -> JS.is_finite incr = true ->
  JS.ltb (JS.of_Z 0) a = true -> JS.ltb (JS.of_Z 0) band = true ->
  JS.ltb (JS.of_Z 0) incr = true ->
  ordinary (capital_low a band incr) /\ ordinary (capital_high a band incr) /\
  ord (capital_low a band incr) <= ord (capital_high a band incr).
Proof.
  intros Va Vb Vi Fa Fb Fi Pa Pb Pi.
  destruct (positive_finite a Pa Fa) as (ma & ea & ->).
  destruct (positive_finite incr Pi Fi) as (mi & ei & ->).
  destruct (positive_ordinary band Vb Pb) as [Ob Sb].
  unfold capital_low, capital_high.
  assert (Ht : ordinary (JS.div band (JS.of_Z 100)) /\
               sign_bit (JS.div band (JS.of_Z 100)) = false).
  { unfold JS.div, JS.prec, JS.emax. literal (JS.of_Z 100).
    match goal with |- context [SFdiv 53 1024 band (S754_finite false ?m ?e)] =>
      destruct (div_pos_sign m e band eq_refl Ob) as [H1 S1] end.
    split; [exact H1|]. now rewrite S1. }
  destruct Ht as [Ot St].
  destruct (one_minus_plus _ Ot St) as (Om & Op & Hle).
  set (lo := JS.sub (JS.of_Z 1) (JS.div band (JS.of_Z 100))) in *.
  set (hi := JS.add (JS.of_Z 1) (JS.div band (JS.of_Z 100))) in *.
  unfold JS.mul, JS.prec, JS.emax.
  rewrite (SFmul_comm _ lo), (SFmul_comm _ hi).
  destruct (mul_pos_monotone ma ea lo hi Va Om Op Hle) as (M1 & M2 & Mle).
  exact (roundToNearest_monotone_ord mi ei _ _ Vi M1 M2 Mle).
Qed.

Lemma shows_minus_sign_bit x : Intl.shows_minus x = sign_bit x.
Proof. now destruct x. Qed.



Lemma roundToNearest_nan_value incr : roundToNearest S754_nan incr = S754_nan.
Proof. reflexivity. Qed.

Lemma roundToNearest_zero_increment v s : roundToNearest v (S754_zero s) = S754_nan.
Proof. now destruct v. Qed.

End Ranges.

(** ** What substitution leaves behind *)

Module Substituted.


Lemma resolveToken_head (k : string) (priceData : option ProductSpotSummary)
    (config : PriceTokenConfig) :
  In k TOKEN_NAMES ->
  exists c r, resolveToken k priceData config = String c r /\ value_head c.
Proof.
  intros Hin. unfold value_head. destruct (unavailable priceData) eqn:Hu.
  - rewrite (resolveToken_unavailable_fallback k priceData config Hu).
    exists "c"%char, "urrent market price". split; [reflexivity|tauto].
  - destruct priceData as [p|]; [|discriminate Hu].
    destruct (resolveToken_available_head k p config Hin Hu) as (c & r & Hr & Hc).
    exists c, r. split; [exact Hr|tauto].
Qed.

Lemma token_text_avoids (g : string) (c : ascii) :
  In g TOKEN_NAMES -> value_head c ->
  all_chars (fun x => negb (Ascii.eqb x c)) (token_text g) = true.
Proof.
  intros Hin Hc.
  repeat (destruct Hin as [<-|Hin];
    [destruct Hc as [->|[->|[->| ->]]]; reflexivity|]).
  destruct Hin.
Qed.

Lemma token_free_cons (x : ascii) (t : string) :
  x <> "{"%char -> token_free t -> token_free (String x t).
Proof.
  intros Hx Ht pre g post Hin H. rewrite token_text_eq in H.
  destruct pre as [|y pre]; cbn [append] in H.
  - injection H as H _. now apply Hx.
  - injection H as _ H. apply (Ht pre g post Hin). now rewrite token_text_eq.
Qed.

Lemma token_free_prepend (r t : string) :
  all_chars not_brace r = true -> token_free t -> token_free (r ++ t).
Proof.
  induction r as [|x r IH]; cbn [append all_chars]; intros Hr Ht; [exact Ht|].
  apply andb_true_iff in Hr as [Hx Hr].
  apply token_free_cons; [|now apply IH].
  intros ->. discriminate Hx.
Qed.

(** A literal, then a value, then text without occurrence: no occurrence. *)
Lemma token_free_join (lit v t : string) (c : ascii) (r : string) :
  token_free lit -> v = String c r -> value_head c ->
  all_chars not_brace v = true -> token_free t ->
  token_free (lit ++ v ++ t).
Proof.
  intros Hlit Hv Hc Hb Ht pre g post Hin H.
  pose proof (token_free_prepend v t Hb Ht) as Hvt.
  destruct (append_eq_append _ _ _ _ H) as [(w & Hl & Hw)|(w & Hp & Hw)].
  - (* the occurrence starts inside the literal *)
    destruct (append_eq_append _ _ _ _ Hw) as [(w2 & Hw2 & Hp2)|(w2 & Hw2 & Hp2)].
    + (* and ends inside the value or later *)
      destruct w2 as [|x w3].
      * rewrite append_nil_r in Hw2. subst w.
        apply (Hlit pre g "" Hin). now rewrite append_nil_r.
      * rewrite Hv in Hp2. cbn [append] in Hp2. injection Hp2 as Hx _. subst x.
        pose proof (token_text_avoids g c Hin Hc) as Ha.
        rewrite Hw2, all_chars_app in Ha. cbn [all_chars] in Ha.
        rewrite Ascii.eqb_refl in Ha. cbn [negb andb] in Ha.
        now rewrite andb_false_r in Ha.
    + subst w. now apply (Hlit pre g w2 Hin).
  - apply (Hvt w g post Hin). exact Hw.
Qed.

Lemma filled_token_free (priceData : option ProductSpotSummary)
    (config : PriceTokenConfig) (segs : list (string * string)) :
  forall lit0, well_cut lit0 segs ->
  token_free (template_filled (fun k => resolveToken k priceData config) lit0 segs).
Proof.
  induction segs as [|[k lit] segs IH]; intros lit0 Hcut; cbn [template_filled].
  - apply Hcut.
  - apply well_cut_cons in Hcut as (Hfree & Hin & Hcut).
    destruct (resolveToken_head k priceData config Hin) as (c & r & Hr & Hc).
    apply (token_free_join lit0 _ _ c r Hfree Hr Hc
             (resolveToken_not_brace k priceData config) (IH lit Hcut)).
Qed.

Lemma replaceTokens_token_free (text : string)
    (priceData : option ProductSpotSummary) (config : PriceTokenConfig) :
  token_free (replaceTokens text priceData config).
Proof.
  destruct (every_text_is_cut text) as (lit0 & segs & Hcut & ->).
  unfold replaceTokens.
  rewrite replace_all_template by (try exact Hcut; apply length_template_source).
  now apply filled_token_free.
Qed.

Lemma token_free_unchanged (text : string)
    (priceData : option ProductSpotSummary) (config : PriceTokenConfig) :
  token_free text -> replaceTokens text priceData config = text.
Proof.
  intros H. unfold replaceTokens.
  apply (replace_all_template _ [] (String.length text) text);
    [split; [exact H|constructor] | cbn; lia].
Qed.

Lemma token_free_findTokens (text : string) : token_free text -> findTokens text = [].
Proof.
  intros H. unfold findTokens.
  apply (exec_loop_template [] (String.length text) text);
    [split; [exact H|constructor] | cbn; lia].
Qed.

Lemma hasTokens_token_free (text : string) : hasTokens text = false <-> token_free text.
Proof.
  unfold hasTokens. rewrite token_free_exec.
  destruct (exec text) as [[[b g] r]|]; split; intros H; congruence.
Qed.

End Substituted.

(** ** Occurrences and segments *)

Module Occurrences.

Lemma segment_occurs (k lit : string) (segs : list (string * string)) :
  forall lit0, In (k, lit) segs -> occurs (token_text k) (template_source lit0 segs).
Proof.
  induction segs as [|[k1 l1] segs IH]; intros lit0 Hin; [destruct Hin|].
  cbn [template_source]. destruct Hin as [E|Hin].
  - injection E as -> ->. now exists lit0, (template_source lit segs).
  - destruct (IH l1 Hin) as (a & b & Hab).
    exists (lit0 ++ token_text k1 ++ a), b. rewrite Hab, !append_assoc. reflexivity.
Qed.

Lemma occurrence_is_segment (k : string) (segs : list (string * string)) :
  In k TOKEN_NAMES ->
  forall lit0, well_cut lit0 segs -> occurs (token_text k) (template_source lit0 segs) ->
  In k (map fst segs).
Proof.
  intros Hk. induction segs as [|[k1 l1] segs IH]; intros lit0 Hcut (pre & post & H).
  - cbn [template_source] in H. destruct Hcut as [Hfree _]. now elim (Hfree pre k post Hk).
  - apply well_cut_cons in Hcut as (Hfree & Hk1 & Hcut).
    cbn [template_source map fst] in H |- *.
    assert (Hsame : forall a b, token_text k ++ a = token_text k1 ++ b -> k1 = k).
    { intros a b E. pose proof (match_here_complete k a Hk) as M1.
      rewrite E, (match_here_complete k1 b Hk1) in M1. now injection M1. }
    destruct (append_eq_append _ _ _ _ H) as [(w & Hl & Hw)|(w & Hp & Hw)].
    + destruct w as [|x w].
      * left. apply (Hsame post (template_source l1 segs)). exact Hw.
      * exfalso. rewrite (token_text_eq k1) in Hw. symmetry in Hw.
        destruct (no_straddle k Hk (String x w) _ post ltac:(discriminate) Hw) as [w' Hw'].
        apply (Hfree pre k w' Hk). now rewrite Hl, Hw'.
    + destruct w as [|x w].
      * left. apply (Hsame post (template_source l1 segs)). symmetry. exact Hw.
      * right. pose proof Hw as Hw0.
        rewrite (token_text_eq k post) in Hw. symmetry in Hw.
        destruct (no_straddle k1 Hk1 (String x w) _ _ ltac:(discriminate) Hw) as [w' Hw'].
        apply (IH l1 Hcut). exists w', post.
        rewrite Hw', append_assoc in Hw0. now apply append_inv_head in Hw0.
Qed.

Lemma template_filled_ext (f g : string -> string) (segs : list (string * string)) :
  forall lit0, (forall k lit, In (k, lit) segs -> f k = g k) ->
  template_filled f lit0 segs = template_filled g lit0 segs.
Proof.
  induction segs as [|[k lit] segs IH]; intros lit0 H; cbn [template_filled]; [reflexivity|].
  rewrite (H k lit (or_introl eq_refl)), (IH lit); [reflexivity|].
  intros k' l' Hin. apply (H k' l'). now right.
Qed.

End Occurrences.

(** ** Further properties of the module *)

Import Binary64 Binary64Facts Arithmetic Ranges Substituted Occurrences.

(** X1. After substitution no token is left: [hasTokens] is false on the
    result, [findTokens] finds nothing in it, and substituting again
    changes nothing. *)
Theorem substituted_text_has_no_token (text : string)
    (priceData : option ProductSpotSummary) (config : PriceTokenConfig) :
  hasTokens (replaceTokens text priceData config) = false /\
  findTokens (replaceTokens text priceData config) = [] /\
  replaceTokens (replaceTokens text priceData config) priceData config
    = replaceTokens text priceData config.
Proof.
  pose proof (replaceTokens_token_free text priceData config) as H.
  split; [now apply hasTokens_token_free|].
  split; [now apply token_free_findTokens | now apply token_free_unchanged].
Qed.

(** X2. [replaceTokens] returns its input unchanged exactly when
    [hasTokens] is false on it. *)
Theorem text_unchanged_iff_no_token (text : string)
    (priceData : option ProductSpotSummary) (config : PriceTokenConfig) :
  replaceTokens text priceData config = text <-> hasTokens text = false.
Proof.
  split.
  - intros H. apply hasTokens_token_free. rewrite <- H. apply replaceTokens_token_free.
  - intros H. now apply token_free_unchanged, hasTokens_token_free.
Qed.

(** X3. [findTokens] returns an identifier exactly when it is one of the
    eight and its double-brace form occurs in the text. *)
Theorem findTokens_membership (text k : string) :
  In k (findTokens text) <-> In k TOKEN_NAMES /\ occurs (token_text k) text.
Proof.
  destruct (every_text_is_cut text) as (lit0 & segs & Hcut & ->).
  unfold findTokens.
  rewrite exec_loop_template by (try exact Hcut; apply length_template_source).
  split.
  - intros Hin. apply in_map_iff in Hin as ([k' lit] & <- & Hin). cbn [fst]. split.
    + destruct Hcut as [_ Hall]. rewrite Forall_forall in Hall.
      apply (Hall _ Hin).
    + now apply (segment_occurs k' lit).
  - intros [Hk Hocc]. now apply (occurrence_is_segment k segs Hk lit0).
Qed.

(** X4. Against an unavailable quote every occurrence becomes the
    fallback phrase, the literals staying as they are. *)
Theorem replaceTokens_unavailable (priceData : option ProductSpotSummary)
    (config : PriceTokenConfig) (lit0 : string) (segs : list (string * string)) :
  unavailable priceData = true -> well_cut lit0 segs ->
  replaceTokens (template_source lit0 segs) priceData config
  = template_filled (fun _ => "current market price") lit0 segs.
Proof.
  intros Hu Hcut.
  unfold replaceTokens.
  rewrite replace_all_template by (try exact Hcut; apply length_template_source).
  apply template_filled_ext. intros k lit _.
  now apply resolveToken_unavailable_fallback.
Qed.

Lemma replaceTokens_unavailable_witness :
  replaceTokens "{{CAPITAL_REQUIREMENT}} and {{SPOT_PRICE}}" None empty_config
  = "current market price and current market price".
Proof.
  apply (replaceTokens_unavailable None empty_config ""
           [("CAPITAL_REQUIREMENT", " and "); ("SPOT_PRICE", "")]).
  - reflexivity.
  - repeat split; repeat constructor; cbn [fst snd In]; try tauto;
      apply token_free_exec; reflexivity.
Defined.

(** X5. [roundToNearest] is monotone in its value: with a finite positive
    increment, [v1 <= v2] gives [roundToNearest v1 incr <= roundToNearest v2
    incr] in binary64, overflow to the infinities included. *)
Theorem roundToNearest_monotone (v1 v2 incr : JS.number) :
  JS.is_number v1 -> JS.is_number v2 -> JS.is_number incr ->
  JS.is_finite incr = true -> JS.ltb (JS.of_Z 0) incr = true ->
  JS.leb v1 v2 = true ->
  JS.leb (roundToNearest v1 incr) (roundToNearest v2 incr) = true.
Proof.
  intros Hv1 Hv2 Hi Hf Hp Hle.
  destruct (positive_finite incr Hp Hf) as (m & e & ->).
  destruct (leb_ordinary v1 v2 Hv1 Hv2 Hle) as (O1 & O2 & Ho).
  destruct (roundToNearest_monotone_ord m e v1 v2 Hi O1 O2 Ho) as (R1 & R2 & Hr).
  now apply ordinary_leb.
Qed.

Lemma roundToNearest_monotone_witness :
  JS.leb (roundToNearest (JS.of_Z 29949) (JS.of_Z 100))
         (roundToNearest (JS.decimal 2995001 2) (JS.of_Z 100)) = true.
Proof.
  apply (roundToNearest_monotone (JS.of_Z 29949) (JS.decimal 2995001 2) (JS.of_Z 100));
    vm_compute; reflexivity.
Defined.

(** X6. On integers below [2^51] in magnitude and a positive integer
    increment below [2^51], [roundToNearest] computes, in binary64 and
    without rounding error, the multiple [I * k] of the increment nearest
    to the value, a value halfway between two multiples going to the larger
    one ([k = floor ((2 V + I) / (2 I))]). *)
Theorem roundToNearest_integers (V I : Z) :
  Z.abs V < 2 ^ 51 -> 0 < I < 2 ^ 51 ->
  let k := (2 * V + I) / (2 * I) in
  strict_equal (roundToNearest (JS.of_Z V) (JS.of_Z I)) (JS.of_Z (I * k)) = true /\
  - I <= 2 * (V - I * k) < I.
Proof.
  intros HV HI k. split; [now apply roundToNearest_integers_eqb|]. subst k.
  pose proof (Z.div_mod (2 * V + I) (2 * I) ltac:(lia)) as E.
  pose proof (Z.mod_pos_bound (2 * V + I) (2 * I) ltac:(lia)) as B.
  lia.
Qed.

Lemma roundToNearest_integers_witness :
  strict_equal (roundToNearest (JS.of_Z 30050) (JS.of_Z 100)) (JS.of_Z 30100) = true /\
  strict_equal (roundToNearest (JS.of_Z (-30050)) (JS.of_Z 100)) (JS.of_Z (-30000)) = true.
Proof.
  split.
  - apply (roundToNearest_integers 30050 100); [reflexivity | split; reflexivity].
  - apply (roundToNearest_integers (-30050) 100); [reflexivity | split; reflexivity].
Defined.

(** X7. With a rounding increment of zero and a valid quote, the division
    by the increment makes every token rounded to the increment render NaN:
    the module does not guard against it. *)
Theorem zero_increment_renders_nan (p : ProductSpotSummary) (config : PriceTokenConfig)
    (s : bool) :
  valid_quote p -> roundingIncrement config = Some (S754_zero s) ->
  resolveToken "CAPITAL_REQUIREMENT" (Some p) config = "~$NaN" /\
  resolveToken "CAPITAL_REQUIREMENT_RANGE" (Some p) config = "~$NaN" ++ en_dash ++ "$NaN" /\
  resolveToken "CAPITAL_REQUIREMENT_PLUS" (Some p) config = "~$NaN+" /\
  resolveToken "LIQUIDITY_THRESHOLD" (Some p) config = "~$NaN+" /\
  resolveToken "BAR_PRICE" (Some p) config = "$NaN".
Proof.
  intros Hq Hc. apply positive_available in Hq.
  unfold resolveToken, merged_roundingIncrement, capital_low, capital_high.
  rewrite Hq, Hc, !roundToNearest_zero_increment. repeat split.
Qed.

Lemma zero_increment_renders_nan_witness :
  resolveToken "CAPITAL_REQUIREMENT" (quote 30000)
    {| premiumBandPercent := None; roundingIncrement := Some (JS.of_Z 0) |} = "~$NaN".
Proof.
  apply (zero_increment_renders_nan {| ask := JS.of_Z 30000 |}
           {| premiumBandPercent := None; roundingIncrement := Some (JS.of_Z 0) |} false);
    reflexivity.
Defined.

(** X8. A quote whose ask is NaN passes the guard [ask <= 0] and every
    kind renders NaN, whatever the configuration. *)
Theorem nan_ask_renders_nan (config : PriceTokenConfig) :
  resolveToken "CAPITAL_REQUIREMENT" nan_quote config = "~$NaN" /\
  resolveToken "CAPITAL_REQUIREMENT_RANGE" nan_quote config = "~$NaN" ++ en_dash ++ "$NaN" /\
  resolveToken "CAPITAL_REQUIREMENT_PLUS" nan_quote config = "~$NaN+" /\
  resolveToken "LIQUIDITY_THRESHOLD" nan_quote config = "~$NaN+" /\
  resolveToken "BAR_PRICE" nan_quote config = "$NaN" /\
  resolveToken "SPOT_PRICE" nan_quote config = "~$NaN" /\
  resolveToken "ONE_OZ_BAR_RANGE" nan_quote config = "$NaN" ++ en_dash ++ "NaN" /\
  resolveToken "HUNDRED_OZ_BAR_RANGE" nan_quote config = "$NaN" ++ en_dash ++ "NaN".
Proof. repeat split. Qed.

(** X9. For a finite positive ask, band and increment, the low bound
    computed for CAPITAL_REQUIREMENT_RANGE is at most the high bound, in
    binary64. *)
Theorem capital_range_ordered (a band incr : JS.number) :
  JS.is_number a -> JS.is_number band -> JS.is_number incr ->
  JS.is_finite a = true -> JS.is_finite band = true -> JS.is_finite incr = true ->
  JS.ltb (JS.of_Z 0) a = true -> JS.ltb (JS.of_Z 0) band = true ->
  JS.ltb (JS.of_Z 0) incr = true ->
  JS.leb (capital_low a band incr) (capital_high a band incr) = true.
Proof.
  intros. destruct (capital_ordered a band incr) as (L & Hh & Ho); try assumption.
  now apply ordinary_leb.
Qed.

Lemma capital_range_ordered_witness :
  JS.leb (capital_low (JS.of_Z 30000) (JS.of_Z 5) (JS.of_Z 100))
         (capital_high (JS.of_Z 30000) (JS.of_Z 5) (JS.of_Z 100)) = true.
Proof.
  apply (capital_range_ordered (JS.of_Z 30000) (JS.of_Z 5) (JS.of_Z 100));
    vm_compute; reflexivity.
Defined.

(** X10. For every positive ask (the infinity included), the low bounds
    computed for ONE_OZ_BAR_RANGE and HUNDRED_OZ_BAR_RANGE are at most the
    high bounds, in binary64. *)
Theorem bar_ranges_ordered (a : JS.number) :
  JS.is_number a -> JS.ltb (JS.of_Z 0) a = true ->
  JS.leb (one_oz_low a) (one_oz_high a) = true /\
  JS.leb (hundred_oz_low a) (hundred_oz_high a) = true.
Proof.
  intros Ha Hp.
  destruct (one_oz_ordered a Ha Hp) as ((L1 & _) & (H1 & _) & O1).
  destruct (hundred_oz_ordered a Ha Hp) as ((L2 & _) & (H2 & _) & O2).
  split; now apply ordinary_leb.
Qed.

Lemma bar_ranges_ordered_witness :
  JS.leb (one_oz_low (JS.of_Z 30000)) (one_oz_high (JS.of_Z 30000)) = true /\
  JS.leb (hundred_oz_low (JS.of_Z 30000)) (hundred_oz_high (JS.of_Z 30000)) = true.
Proof.
  apply (bar_ranges_ordered (JS.of_Z 30000)); vm_compute; reflexivity.
Defined.





(** X13. With a finite positive increment [roundToNearest] never turns a
    number into NaN and never changes its sign: a negative value that rounds
    to zero gives the negative zero, which the formatter shows with a minus
    sign. *)
Theorem roundToNearest_keeps_sign (v incr : JS.number) :
  JS.is_number v -> is_nan v = false ->
  JS.is_number incr -> JS.is_finite incr = true -> JS.ltb (JS.of_Z 0) incr = true ->
  is_nan (roundToNearest v incr) = false /\
  Intl.shows_minus (roundToNearest v incr) = Intl.shows_minus v.
Proof.
  intros Hv Hn Hi Hf Hp.
  destruct (positive_finite incr Hp Hf) as (m & e & ->).
  destruct (roundToNearest_sign m e v Hi (conj Hv Hn)) as [[_ Hr] Hs].
  split; [exact Hr|]. now rewrite !shows_minus_sign_bit.
Qed.

Lemma roundToNearest_keeps_sign_witness :
  is_nan (roundToNearest (JS.of_Z (-30)) (JS.of_Z 100)) = false /\
  Intl.shows_minus (roundToNearest (JS.of_Z (-30)) (JS.of_Z 100)) = true.
Proof.
  apply (roundToNearest_keeps_sign (JS.of_Z (-30)) (JS.of_Z 100)); reflexivity.
Defined.
